(** * Rule L006 of sqlfluff: operators should be surrounded by whitespace.

    A shallow embedding of [Rule_L006._eval]
    (src/sqlfluff/core/rules/std/L006.py) and the properties of the rule
    stated in the specification.  The rule looks at the direct children of
    one segment of the syntax tree and reports the operators that have no
    whitespace before or after them, each report carrying a fix that
    creates a one-space segment. *)

From Stdlib Require Import List String Ascii Bool Arith Lia Sorted.
Import ListNotations.

Local Open Scope string_scope.
Local Open Scope list_scope.
Local Open Scope bool_scope.

(** ** Python string operations used by the rule

    A Python [str] is modelled as a [string], its characters as [ascii]
    characters. *)

Module PyStr.

(** The one-character string of a line feed. *)
Definition newline : string := String "010"%char EmptyString.

(** [s.startswith(p)]. *)
Definition startswith (s p : string) : bool := String.prefix p s.

(** [s.endswith(p)]: the last [len(p)] characters of [s] are [p]. *)
Definition endswith (s p : string) : bool :=
  (String.length p <=? String.length s)%nat &&
  String.eqb (substring (String.length s - String.length p) (String.length p) s) p.

(** The slice [s[:n]]: at most the first [n] characters. *)
Definition slice_to (n : nat) (s : string) : string := substring 0 n s.

(** The slice [s[-n:]] for [n > 0]: at most the last [n] characters. *)
Definition slice_last (n : nat) (s : string) : string :=
  substring (String.length s - n) n s.

End PyStr.

(** ** The tree segment model *)

(** A position marker is opaque to the rule: it is only copied from a
    segment into the whitespace segment created next to it. *)
Definition PosMarker : Type := nat.

Set Warnings "-register-all".

(** A segment of the syntax tree, with the attributes the rule reads:
    [name], the type tags answered by [is_type], the three flags, the raw
    text, the template source of a placeholder, the position and the
    children ([segments], empty for a leaf). *)
Inductive segment : Type := Segment {
  name : string;
  type_tags : list string;
  is_whitespace : bool;
  is_code : bool;
  is_meta : bool;
  raw : string;
  source_str : string;
  pos_marker : PosMarker;
  segments : list segment
}.

Set Warnings "register-all".

(** [seg.is_type(t)]: the tag [t] is one of the segment's type tags. *)
Definition is_type (seg : segment) (t : string) : bool :=
  existsb (String.eqb t) (type_tags seg).

(** Modelled from the spec: [iter_raw_seg] of the segment class, which is
    not part of the rule's file.  The depth-first leaf iterator: a leaf
    yields itself, a segment with children yields the leaves of its
    children from left to right. *)
Fixpoint iter_raw_seg (seg : segment) : list segment :=
  match seg with
  | Segment _ _ _ _ _ _ _ _ children =>
      match children with
      | [] => [seg]
      | _ :: _ => flat_map iter_raw_seg children
      end
  end.

(** Two segments are the same segment when all their attributes and
    children agree. *)
Fixpoint segment_eq_dec (a b : segment) {struct a} : {a = b} + {a <> b}.
Proof.
  decide equality;
    try apply string_dec; try apply bool_dec; try apply Nat.eq_dec;
    try apply (list_eq_dec string_dec).
  apply (list_eq_dec segment_eq_dec).
Defined.

Definition segment_eqb (a b : segment) : bool :=
  if segment_eq_dec a b then true else false.

(** ** Diagnostics and fixes *)

(** The kinds of edit a fix can ask for; the rule only creates. *)
Inductive EditType : Type := Create | Edit | Delete.

(** [LintFix(edit_type, anchor, edit)]. *)
Record LintFix : Type := mkLintFix {
  edit_type : EditType;
  fix_anchor : segment;
  edit : segment
}.

(** [LintResult(anchor, fixes, description)]; [LintResult()] has no
    anchor, no description and no fixes. *)
Record LintResult : Type := mkLintResult {
  anchor : option segment;
  description : option string;
  fixes : list LintFix
}.

Definition empty_LintResult : LintResult :=
  {| anchor := None; description := None; fixes := [] |}.

(** What [_eval] hands back: [None] (the function falls off its end), one
    [LintResult], or a list of them. *)
Inductive EvalResult : Type :=
| ResNone
| ResSingle (r : LintResult)
| ResList (rs : list LintResult).

(** ** The rule *)

Module Rule_L006.

Import PyStr.

Definition _target_elems : list (string * string) :=
  [("type", "binary_operator"); ("type", "comparison_operator")].

(** Modelled from the spec: [matches_target_tuples] of the rule base
    class, which is not part of the rule's file.  A segment matches when
    for one of the pairs the named attribute holds the value: the type
    tags for "type", the name for "name". *)
Definition matches_target_tuples (seg : segment)
    (target_tuples : list (string * string)) : bool :=
  existsb (fun elem =>
             if String.eqb (fst elem) "type" then is_type seg (snd elem)
             else if String.eqb (fst elem) "name" then String.eqb (name seg) (snd elem)
             else false)
          target_tuples.

(** Modelled from the spec: [make_whitespace] of the rule base class,
    which is not part of the rule's file.  Given the raw text and a
    position it builds a new leaf that is whitespace, not code and not
    meta.  (The spec rejects an empty raw text; the rule always passes
    one space.) *)
Definition make_whitespace (raw : string) (pos_marker : PosMarker) : segment :=
  {| name := "whitespace";
     type_tags := ["whitespace"];
     is_whitespace := true;
     is_code := false;
     is_meta := false;
     raw := raw;
     source_str := "";
     pos_marker := pos_marker;
     segments := [] |}.

(** The four locals set at the top of the loop body. *)
Record Checks : Type := mkChecks {
  check_before : bool;
  check_after : bool;
  before_anchor : segment;
  after_anchor : segment
}.

(** Lines 64-104: is the child a target itself, or a compound segment
    that starts or ends with one? *)
Definition find_targets (sub_seg : segment) : Checks :=
  let init := mkChecks false false sub_seg sub_seg in
  if matches_target_tuples sub_seg _target_elems then
    mkChecks true true sub_seg sub_seg
  else
    match segments sub_seg with
    | [] => init
    | _ :: _ =>
        let raw_list := iter_raw_seg sub_seg in
        if (1 <? List.length raw_list)%nat then
          let leading := hd sub_seg raw_list in
          let trailing := last raw_list sub_seg in
          let c1 :=
            if matches_target_tuples leading _target_elems
            then mkChecks true (check_after init) leading (after_anchor init)
            else init in
          if matches_target_tuples trailing _target_elems
          then mkChecks (check_before c1) true (before_anchor c1) trailing
          else c1
        else init
    end.

(** Lines 107-115: [j = idx - 1; while j >= 0: ...], with [n = j + 1].
    Indents are passed over; the first other sibling is the result. *)
Fixpoint scan_prev (segs : list segment) (n : nat) : option segment :=
  match n with
  | 0 => None
  | S j =>
      match nth_error segs j with
      | Some s => if is_type s "indent" then scan_prev segs j else Some s
      | None => None
      end
  end.

(** Lines 162-170: [while j < len(segment.segments): ...]; [fuel] counts
    the siblings from [j] on, so the loop never stops for lack of it. *)
Fixpoint scan_next (segs : list segment) (j fuel : nat) : option segment :=
  match fuel with
  | 0 => None
  | S fuel' =>
      match nth_error segs j with
      | Some s => if is_type s "indent" then scan_next segs (S j) fuel' else Some s
      | None => None
      end
  end.

(** Lines 117-136: the condition under which a gap before is reported. *)
Definition before_gap (prev_seg : option segment) : bool :=
  match prev_seg with
  | None => false
  | Some p =>
      negb (is_whitespace p)
      && negb (endswith (name p) "_bracket" && startswith (name p) "start_")
      && negb (is_meta p
               && (endswith (source_str p) " " || endswith (source_str p) newline))
  end.

(** Lines 172-191: the condition under which a gap after is reported. *)
Definition after_gap (next_seg : option segment) : bool :=
  match next_seg with
  | None => false
  | Some n =>
      negb (is_whitespace n)
      && negb (endswith (name n) "_bracket" && startswith (name n) "end_")
      && negb (is_meta n
               && (startswith (source_str n) " " || startswith (source_str n) newline))
  end.

(** Lines 142-159: the diagnostic of a gap before [sub_seg]. *)
Definition before_result (sub_seg before_anchor : segment) : LintResult :=
  {| anchor := Some before_anchor;
     description :=
       Some ("Missing whitespace before " ++ slice_to 10 (raw before_anchor))%string;
     fixes := [ mkLintFix Create sub_seg
                  (make_whitespace " " (pos_marker sub_seg)) ] |}.

(** Lines 197-214: the diagnostic of a gap between the child and
    [next_seg]. *)
Definition after_result (next_seg after_anchor : segment) : LintResult :=
  {| anchor := Some after_anchor;
     description :=
       Some ("Missing whitespace after " ++ slice_last 10 (raw after_anchor))%string;
     fixes := [ mkLintFix Create next_seg
                  (make_whitespace " " (pos_marker next_seg)) ] |}.

(** Lines 106-159: what the before check appends to [violations]. *)
Definition before_violations (segs : list segment) (idx : nat)
    (sub_seg before_anchor : segment) : list LintResult :=
  let prev_seg := scan_prev segs idx in
  if before_gap prev_seg then [before_result sub_seg before_anchor] else [].

(** Lines 161-214: what the after check appends to [violations]. *)
Definition after_violations (segs : list segment) (idx : nat)
    (after_anchor : segment) : list LintResult :=
  let next_seg := scan_next segs (idx + 1) (List.length segs - (idx + 1)) in
  match next_seg with
  | Some n => if after_gap next_seg then [after_result n after_anchor] else []
  | None => []
  end.

(** One turn of the loop of line 63, from the list of violations so far
    to the list after the turn. *)
Definition loop_body (segs : list segment) (violations : list LintResult)
    (idx : nat) (sub_seg : segment) : list LintResult :=
  if is_whitespace sub_seg then violations
  else if negb (is_code sub_seg) then violations
  else
    let c := find_targets sub_seg in
    let violations :=
      if check_before c
      then violations ++ before_violations segs idx sub_seg (before_anchor c)
      else violations in
    if check_after c
    then violations ++ after_violations segs idx (after_anchor c)
    else violations.

(** [enumerate(segs)]. *)
Definition enumerate (segs : list segment) : list (nat * segment) :=
  combine (seq 0 (List.length segs)) segs.

(** Lines 61-214: the list [violations] when the loop has ended. *)
Definition collect_violations (segs : list segment) : list LintResult :=
  fold_left (fun violations p => loop_body segs violations (fst p) (snd p))
            (enumerate segs) [].

(** [Rule_L006._eval]. *)
Definition _eval (segment : segment) : EvalResult :=
  if (List.length (segments segment) <=? 2)%nat then ResSingle empty_LintResult
  else
    match collect_violations (segments segment) with
    | [] => ResNone
    | violations => ResList violations
    end.

End Rule_L006.

Import PyStr Rule_L006.

(** ** The rule as the driver sees it, and the application of fixes *)

(** Modelled from the spec: the reading of the rule's return value by the
    rule-engine driver, which is not part of the rule's file; the spec
    gives the call contract [evaluate(node) -> sequence of Diagnostic].
    [None] and a [LintResult] without anchor carry no diagnostic. *)
Definition evaluate (node : segment) : list LintResult :=
  match _eval node with
  | ResNone => []
  | ResSingle r => match anchor r with Some _ => [r] | None => [] end
  | ResList rs => rs
  end.

(** The diagnostics raised by the child at [idx] alone. *)
Definition child_violations (segs : list segment) (idx : nat) (sub_seg : segment)
  : list LintResult :=
  loop_body segs [] idx sub_seg.

(** The diagnostics raised by the children at [start], ..., [start + len - 1],
    child after child. *)
Definition range_violations (segs : list segment) (start len : nat)
  : list LintResult :=
  flat_map (fun idx => match nth_error segs idx with
                       | Some sub_seg => child_violations segs idx sub_seg
                       | None => []
                       end)
           (seq start len).

(** The first sibling of a list that is not an indent. *)
Definition first_non_indent (l : list segment) : option segment :=
  find (fun s => negb (is_type s "indent")) l.

(** All fixes proposed by one evaluation. *)
Definition proposed_fixes (node : segment) : list LintFix :=
  flat_map fixes (evaluate node).

Definition is_create (k : EditType) : bool :=
  match k with Create => true | _ => false end.

(** The segments that the create-fixes anchored at [child] ask for. *)
Definition created_before (fs : list LintFix) (child : segment) : list segment :=
  map edit (filter (fun f => is_create (edit_type f)
                             && segment_eqb (fix_anchor f) child) fs).

(** Modelled from the spec: the fix-application layer, which is not part
    of the rule's file.  Every create-fix inserts its new segment
    immediately before its anchor in the parent's child list.  A child is
    the anchor of a fix when it is the same segment, position included; in
    a parsed tree no two children are. *)
Definition apply_fixes (fs : list LintFix) (children : list segment)
  : list segment :=
  flat_map (fun child => created_before fs child ++ [child]) children.

(** The parent with a new child list; its raw text stays the concatenation
    of its children's. *)
Definition with_segments (node : segment) (children : list segment) : segment :=
  {| name := name node;
     type_tags := type_tags node;
     is_whitespace := is_whitespace node;
     is_code := is_code node;
     is_meta := is_meta node;
     raw := String.concat "" (map raw children);
     source_str := source_str node;
     pos_marker := pos_marker node;
     segments := children |}.

(** The tree after all fixes proposed for [node] have been applied. *)
Definition fix_all (node : segment) : segment :=
  with_segments node (apply_fixes (proposed_fixes node) (segments node)).

(** ** Vocabulary of the scenarios *)

(** The operator predicate: binary or comparison operator. *)
Definition is_operator_target (seg : segment) : bool :=
  matches_target_tuples seg _target_elems.

(** A child that raises no check: not an operator, and no children that
    could start or end with one. *)
Definition plain_leaf (seg : segment) : Prop :=
  segments seg = [] /\ is_operator_target seg = false.

(** A sibling next to which an operator has a gap on either side: it is
    no whitespace, no indent, no bracket and no meta segment. *)
Definition substantive (seg : segment) : Prop :=
  is_whitespace seg = false /\ is_type seg "indent" = false /\
  endswith (name seg) "_bracket" = false /\ is_meta seg = false.

(** A child in which the rule looks for targets: code, not whitespace. *)
Definition examined (seg : segment) : Prop :=
  is_whitespace seg = false /\ is_code seg = true.

(** A child that asks for a check on some side. *)
Definition has_target (seg : segment) : bool :=
  negb (is_whitespace seg) && is_code seg
  && (check_before (find_targets seg) || check_after (find_targets seg)).

Definition is_before_diagnostic (r : LintResult) : Prop :=
  exists x, description r = Some ("Missing whitespace before " ++ x)%string.

Definition is_after_diagnostic (r : LintResult) : Prop :=
  exists x, description r = Some ("Missing whitespace after " ++ x)%string.

(** *** Concrete segments *)

Module Ex.

Definition ident (raw : string) (pos : PosMarker) : segment :=
  Segment "naked_identifier" ["raw"] false true false raw "" pos [].

Definition operator (raw : string) (pos : PosMarker) : segment :=
  Segment "plus" ["binary_operator"; "raw"] false true false raw "" pos [].

Definition space (pos : PosMarker) : segment := make_whitespace " " pos.

Definition indent (pos : PosMarker) : segment :=
  Segment "indent" ["indent"; "meta"] false false true "" "" pos [].

Definition open_bracket (pos : PosMarker) : segment :=
  Segment "start_bracket" ["start_bracket"; "raw"] false true false "(" "" pos [].

Definition close_bracket (pos : PosMarker) : segment :=
  Segment "end_bracket" ["end_bracket"; "raw"] false true false ")" "" pos [].

Definition placeholder (source : string) (pos : PosMarker) : segment :=
  Segment "placeholder" ["placeholder"; "meta"] false false true "" source pos [].

Definition compound (children : list segment) (pos : PosMarker) : segment :=
  Segment "expression" ["expression"] false true false
          (String.concat "" (map raw children)) "" pos children.

Definition parent (children : list segment) : segment :=
  compound children 0.

(** The compound child [+b] with its two leaves. *)
Definition plus : segment := operator "+" 2.
Definition b : segment := ident "b" 3.
Definition plusb : segment := compound [plus; b] 2.

(** [a+b] *)
Definition a_plus_b : segment :=
  parent [ident "a" 0; operator "+" 1; ident "b" 2].

(** [a +b], with [+b] one compound child *)
Definition a_space_plusb : segment :=
  parent [ident "a" 0; space 1; plusb].

(** [(a+b], with [+b] one compound child *)
Definition bracket_a_plusb : segment :=
  parent [open_bracket 0; ident "a" 1; plusb].

(** [a(+b], with [+b] one compound child *)
Definition a_bracket_plusb : segment :=
  parent [ident "a" 0; open_bracket 1; plusb].

(** [a + b] *)
Definition a_sp_plus_sp_b : segment :=
  parent [ident "a" 0; space 1; operator "+" 2; space 3; ident "b" 4].

(** [a+b] with an indent marker after [a] *)
Definition a_indent_plus_b : segment :=
  parent [ident "a" 0; indent 1; operator "+" 1; ident "b" 2].

(** [(+)] *)
Definition bracketed_plus : list segment :=
  [open_bracket 0; operator "+" 1; close_bracket 2].

(** An operator between two placeholders whose template text brings the
    whitespace. *)
Definition opening : segment := placeholder ("{% if x -%}" ++ newline) 0.
Definition closing : segment := placeholder " {%- endif %}" 2.
Definition templated_plus : list segment := [opening; operator "+" 1; closing].

End Ex.

(** Every segment the fixes create is whitespace and no indent marker. *)
Definition spaces_only (fs : list LintFix) : Prop :=
  forall f, In f fs ->
            is_whitespace (edit f) = true /\ is_type (edit f) "indent" = false.

(** The diagnostic [r] is one of those raised by the child at [idx]. *)
Definition raised_by (segs : list segment) (idx : nat) (r : LintResult) : Prop :=
  exists sub_seg,
    nth_error segs idx = Some sub_seg /\ In r (child_violations segs idx sub_seg).

(** Unfolds the two scans at a concrete child list down to the tests on
    the siblings' tags. *)
Ltac run_scans :=
  unfold before_violations, after_violations;
  cbn [scan_prev scan_next nth_error List.length Nat.add Nat.sub].

(** ** Structure of the loop *)

Section LoopStructure.

Variable segs : list segment.

(** A turn of the loop only appends to the violations it was given. *)
Lemma loop_body_app (violations : list LintResult) (idx : nat) (sub_seg : segment) :
  loop_body segs violations idx sub_seg
  = violations ++ child_violations segs idx sub_seg.
Proof.
  unfold child_violations, loop_body.
  destruct (is_whitespace sub_seg); [now rewrite app_nil_r|].
  destruct (negb (is_code sub_seg)); [now rewrite app_nil_r|].
  destruct (check_before (find_targets sub_seg)),
           (check_after (find_targets sub_seg)); simpl;
    now rewrite ?app_nil_r, ?app_assoc.
Qed.

Lemma fold_loop_body (l : list (nat * segment)) (violations : list LintResult) :
  fold_left (fun vs p => loop_body segs vs (fst p) (snd p)) l violations
  = violations
    ++ flat_map (fun p => child_violations segs (fst p) (snd p)) l.
Proof.
  revert violations.
  induction l as [|p l IH]; intros violations; simpl.
  - now rewrite app_nil_r.
  - rewrite IH, loop_body_app, app_assoc. reflexivity.
Qed.

End LoopStructure.

Lemma nth_error_middle (pre : list segment) (x : segment) (post : list segment) :
  nth_error (pre ++ x :: post) (List.length pre) = Some x.
Proof.
  rewrite nth_error_app2 by lia. now rewrite Nat.sub_diag.
Qed.

Lemma app_cons_assoc (pre : list segment) (x : segment) (post : list segment) :
  pre ++ x :: post = (pre ++ [x]) ++ post.
Proof. now rewrite <- app_assoc. Qed.

Lemma length_snoc (pre : list segment) (x : segment) :
  List.length (pre ++ [x]) = S (List.length pre).
Proof. rewrite length_app. simpl. lia. Qed.

(** Enumerating the children pairs every index with the child found
    there. *)
Lemma enumerate_range (l pre : list segment) :
  flat_map (fun p => child_violations (pre ++ l) (fst p) (snd p))
           (combine (seq (List.length pre) (List.length l)) l)
  = range_violations (pre ++ l) (List.length pre) (List.length l).
Proof.
  revert pre.
  induction l as [|x l IH]; intros pre; [reflexivity|].
  unfold range_violations. simpl.
  rewrite nth_error_middle. f_equal.
  rewrite app_cons_assoc, <- (length_snoc pre x).
  apply IH.
Qed.

(** The violations collected by the loop are those of the children in the
    order of the child list. *)
Lemma collect_violations_range (segs : list segment) :
  collect_violations segs = range_violations segs 0 (List.length segs).
Proof.
  unfold collect_violations, enumerate.
  rewrite fold_loop_body. simpl.
  apply (enumerate_range segs []).
Qed.

Lemma range_violations_app (segs : list segment) (start len1 len2 : nat) :
  range_violations segs start (len1 + len2)
  = range_violations segs start len1 ++ range_violations segs (start + len1) len2.
Proof.
  unfold range_violations. now rewrite seq_app, flat_map_app.
Qed.

(** [evaluate] in terms of the children's own diagnostics. *)
Lemma evaluate_unfold (node : segment) :
  evaluate node
  = if (List.length (segments node) <=? 2)%nat then []
    else range_violations (segments node) 0 (List.length (segments node)).
Proof.
  unfold evaluate, _eval.
  destruct (List.length (segments node) <=? 2)%nat; [reflexivity|].
  rewrite <- collect_violations_range.
  now destruct (collect_violations (segments node)).
Qed.

(** ** The neighbour scans *)

Lemma scan_prev_split (pre post : list segment) :
  scan_prev (pre ++ post) (List.length pre) = first_non_indent (rev pre).
Proof.
  revert post.
  induction pre as [|x pre IH] using rev_ind; intros post; [reflexivity|].
  rewrite length_snoc, rev_app_distr. simpl.
  rewrite <- app_cons_assoc, nth_error_middle.
  destruct (is_type x "indent"); [apply IH | reflexivity].
Qed.

Lemma scan_next_split (pre post : list segment) :
  scan_next (pre ++ post) (List.length pre) (List.length post)
  = first_non_indent post.
Proof.
  revert pre.
  induction post as [|x post IH]; intros pre; [reflexivity|].
  simpl. rewrite nth_error_middle.
  destruct (is_type x "indent"); [|reflexivity].
  simpl. rewrite app_cons_assoc, <- (length_snoc pre x). apply IH.
Qed.

(** The diagnostics of a child in terms of the siblings on its two
    sides. *)
Lemma before_violations_split (pre post : list segment) (sub_seg ba : segment) :
  before_violations (pre ++ sub_seg :: post) (List.length pre) sub_seg ba
  = if before_gap (first_non_indent (rev pre)) then [before_result sub_seg ba] else [].
Proof.
  unfold before_violations. now rewrite scan_prev_split.
Qed.

Lemma after_violations_split (pre post : list segment) (sub_seg aa : segment) :
  after_violations (pre ++ sub_seg :: post) (List.length pre) aa
  = match first_non_indent post with
    | Some n => if after_gap (Some n) then [after_result n aa] else []
    | None => []
    end.
Proof.
  unfold after_violations.
  replace (List.length (pre ++ sub_seg :: post) - (List.length pre + 1))
    with (List.length post) by (rewrite length_app; simpl; lia).
  rewrite (app_cons_assoc pre sub_seg post).
  replace (List.length pre + 1) with (List.length (pre ++ [sub_seg]))
    by (rewrite length_snoc; lia).
  rewrite scan_next_split.
  now destruct (first_non_indent post).
Qed.

(** ** What a single child raises *)

Lemma child_violations_whitespace (segs : list segment) (idx : nat) (s : segment) :
  is_whitespace s = true -> child_violations segs idx s = [].
Proof. intros H. unfold child_violations, loop_body. now rewrite H. Qed.

Lemma child_violations_non_code (segs : list segment) (idx : nat) (s : segment) :
  is_code s = false -> child_violations segs idx s = [].
Proof.
  intros H. unfold child_violations, loop_body. rewrite H.
  now destruct (is_whitespace s).
Qed.

Lemma child_violations_examined (segs : list segment) (idx : nat) (s : segment) :
  examined s ->
  child_violations segs idx s
  = (if check_before (find_targets s)
     then before_violations segs idx s (before_anchor (find_targets s)) else [])
    ++ (if check_after (find_targets s)
        then after_violations segs idx (after_anchor (find_targets s)) else []).
Proof.
  intros [Hw Hc]. unfold child_violations, loop_body. rewrite Hw, Hc. simpl.
  destruct (check_before (find_targets s)), (check_after (find_targets s));
    now rewrite ?app_nil_r.
Qed.

Lemma find_targets_operator (s : segment) :
  is_operator_target s = true -> find_targets s = mkChecks true true s s.
Proof. intros H. unfold find_targets. unfold is_operator_target in H. now rewrite H. Qed.

Lemma find_targets_plain (s : segment) :
  plain_leaf s -> find_targets s = mkChecks false false s s.
Proof.
  intros [Hl Ht]. unfold find_targets. unfold is_operator_target in Ht.
  now rewrite Ht, Hl.
Qed.

Lemma child_violations_plain (segs : list segment) (idx : nat) (s : segment) :
  plain_leaf s -> child_violations segs idx s = [].
Proof.
  intros H. unfold child_violations, loop_body.
  rewrite (find_targets_plain s H). simpl.
  now destruct (is_whitespace s), (is_code s).
Qed.

Lemma child_violations_operator (segs : list segment) (idx : nat) (s : segment) :
  examined s -> is_operator_target s = true ->
  child_violations segs idx s
  = before_violations segs idx s s ++ after_violations segs idx s.
Proof.
  intros He Ht. rewrite (child_violations_examined _ _ _ He).
  now rewrite (find_targets_operator s Ht).
Qed.

(** Whatever the child, it raises at most a before diagnostic followed by
    an after diagnostic. *)
Lemma child_violations_shape (segs : list segment) (idx : nat) (s : segment) :
  exists B A,
    child_violations segs idx s = B ++ A
    /\ (B = [] \/ B = [before_result s (before_anchor (find_targets s))])
    /\ (A = [] \/ exists n, A = [after_result n (after_anchor (find_targets s))]).
Proof.
  destruct (is_whitespace s) eqn:Hw.
  { exists [], []. rewrite child_violations_whitespace by assumption. auto. }
  destruct (is_code s) eqn:Hc.
  2:{ exists [], []. rewrite child_violations_non_code by assumption. auto. }
  rewrite child_violations_examined by (split; assumption).
  eexists. eexists. split; [reflexivity|]. split.
  - destruct (check_before (find_targets s)); [|now left].
    unfold before_violations. destruct (before_gap _); auto.
  - destruct (check_after (find_targets s)); [|now left].
    unfold after_violations.
    destruct (scan_next _ _ _) as [n|]; [|now left].
    destruct (after_gap _); [right; now exists n | now left].
Qed.

Lemma before_gap_substantive (p : segment) :
  substantive p -> before_gap (Some p) = true.
Proof. intros (Hw & _ & Hb & Hm). simpl. now rewrite Hw, Hb, Hm. Qed.

Lemma after_gap_substantive (n : segment) :
  substantive n -> after_gap (Some n) = true.
Proof. intros (Hw & _ & Hb & Hm). simpl. now rewrite Hw, Hb, Hm. Qed.

(** When every child's diagnostics are empty so are the range's. *)
Lemma range_violations_nil (segs : list segment) (start len : nat) :
  (forall idx s, nth_error segs idx = Some s -> child_violations segs idx s = []) ->
  range_violations segs start len = [].
Proof.
  intros H. unfold range_violations.
  induction (seq start len) as [|i l IH]; [reflexivity|]. simpl.
  rewrite IH, app_nil_r.
  destruct (nth_error segs i) eqn:E; [now apply H | reflexivity].
Qed.

Lemma evaluate_nil (node : segment) :
  (forall idx s, nth_error (segments node) idx = Some s ->
                 child_violations (segments node) idx s = []) ->
  evaluate node = [].
Proof.
  intros H. rewrite evaluate_unfold.
  destruct (_ <=? _)%nat; [reflexivity | now apply range_violations_nil].
Qed.

(** ** Scenarios with a separate operator child *)

(** C1: when the direct children are exactly a non-operator leaf, an
    operator "+" and a non-operator leaf, with no whitespace between them,
    [evaluate] returns exactly the two diagnostics "Missing whitespace
    before +" and "Missing whitespace after +"; each carries one create-fix
    of a one-space whitespace segment, the first anchored at the operator
    child itself and the second at the following neighbour. *)
Theorem c1_operator_without_whitespace :
  forall node a op b : segment,
    segments node = [a; op; b] ->
    plain_leaf a -> substantive a ->
    examined op -> is_operator_target op = true -> raw op = "+" ->
    plain_leaf b -> substantive b ->
    evaluate node
    = [ {| anchor := Some op;
           description := Some "Missing whitespace before +";
           fixes := [ {| edit_type := Create; fix_anchor := op;
                         edit := make_whitespace " " (pos_marker op) |} ] |};
        {| anchor := Some op;
           description := Some "Missing whitespace after +";
           fixes := [ {| edit_type := Create; fix_anchor := b;
                         edit := make_whitespace " " (pos_marker b) |} ] |} ].
Proof.
  intros node a op b Hsegs Hpa Hsa Hop Htarget Hraw Hpb Hsb.
  rewrite evaluate_unfold, Hsegs.
  unfold range_violations. cbn [List.length Nat.leb seq flat_map nth_error].
  rewrite (child_violations_plain _ _ _ Hpa), (child_violations_plain _ _ _ Hpb).
  rewrite (child_violations_operator _ _ _ Hop Htarget).
  run_scans.
  destruct Hsa as (Hwa & Hia & Hba & Hma), Hsb as (Hwb & Hib & Hbb & Hmb).
  rewrite Hia, Hib.
  rewrite (before_gap_substantive a), (after_gap_substantive b) by (repeat split; assumption).
  unfold before_result, after_result. rewrite Hraw. reflexivity.
Qed.

Lemma c1_operator_without_whitespace_witness :
  evaluate Ex.a_plus_b
  = [ before_result (Ex.operator "+" 1) (Ex.operator "+" 1);
      after_result (Ex.ident "b" 2) (Ex.operator "+" 1) ].
Proof.
  apply (c1_operator_without_whitespace
           Ex.a_plus_b (Ex.ident "a" 0) (Ex.operator "+" 1) (Ex.ident "b" 2));
    repeat split; reflexivity.
Defined.

(** C5: each scan passes over every sibling tagged "indent" and stops at
    the first sibling that is not; with the children a leaf, an indent
    marker, an operator and a leaf, and no whitespace, [evaluate] reports
    the gap before and the gap after the operator across the marker. *)
Theorem c5_indents_are_skipped :
  (forall (segs : list segment) (idx : nat),
      idx <= List.length segs ->
      scan_prev segs idx = first_non_indent (rev (firstn idx segs)))
  /\ (forall (segs : list segment) (idx : nat),
      scan_next segs (idx + 1) (List.length segs - (idx + 1))
      = first_non_indent (skipn (idx + 1) segs))
  /\ (forall node a marker op b : segment,
      segments node = [a; marker; op; b] ->
      plain_leaf a -> substantive a ->
      is_type marker "indent" = true -> is_code marker = false ->
      examined op -> is_operator_target op = true ->
      plain_leaf b -> substantive b ->
      evaluate node
      = [ {| anchor := Some op;
             description :=
               Some ("Missing whitespace before " ++ slice_to 10 (raw op))%string;
             fixes := [ {| edit_type := Create; fix_anchor := op;
                           edit := make_whitespace " " (pos_marker op) |} ] |};
          {| anchor := Some op;
             description :=
               Some ("Missing whitespace after " ++ slice_last 10 (raw op))%string;
             fixes := [ {| edit_type := Create; fix_anchor := b;
                           edit := make_whitespace " " (pos_marker b) |} ] |} ]
      /\ (raw op = "+" ->
          evaluate node
          = [ {| anchor := Some op;
                 description := Some "Missing whitespace before +";
                 fixes := [ {| edit_type := Create; fix_anchor := op;
                               edit := make_whitespace " " (pos_marker op) |} ] |};
              {| anchor := Some op;
                 description := Some "Missing whitespace after +";
                 fixes := [ {| edit_type := Create; fix_anchor := b;
                               edit := make_whitespace " " (pos_marker b) |} ] |} ])).
Proof.
  split; [|split].
  - intros segs idx Hle.
    pose proof (scan_prev_split (firstn idx segs) (skipn idx segs)) as H.
    rewrite firstn_skipn, length_firstn, Nat.min_l in H by lia.
    exact H.
  - intros segs idx.
    destruct (Nat.le_gt_cases (idx + 1) (List.length segs)) as [Hle|Hgt].
    + pose proof (scan_next_split (firstn (idx + 1) segs) (skipn (idx + 1) segs)) as H.
      rewrite firstn_skipn, length_firstn, length_skipn, Nat.min_l in H by lia.
      exact H.
    + replace (List.length segs - (idx + 1)) with 0 by lia.
      rewrite skipn_all2 by lia. reflexivity.
  - intros node a marker op b Hsegs Hpa Hsa Hind Hnc Hop Htarget Hpb Hsb.
    rewrite evaluate_unfold, Hsegs.
    unfold range_violations. cbn [List.length Nat.leb seq flat_map nth_error].
    rewrite (child_violations_plain _ _ _ Hpa), (child_violations_plain _ _ _ Hpb).
    rewrite (child_violations_non_code _ _ _ Hnc).
    rewrite (child_violations_operator _ _ _ Hop Htarget).
    run_scans.
    destruct Hsa as (Hwa & Hia & Hba & Hma), Hsb as (Hwb & Hib & Hbb & Hmb).
    rewrite Hind, Hia, Hib.
    rewrite (before_gap_substantive a), (after_gap_substantive b)
      by (repeat split; assumption).
    unfold before_result, after_result.
    split; [reflexivity|]. intros Hraw. rewrite Hraw. reflexivity.
Qed.

Lemma c5_indents_are_skipped_witness :
  scan_prev (segments Ex.a_indent_plus_b) 2 = Some (Ex.ident "a" 0)
  /\ scan_next (segments Ex.a_indent_plus_b) (0 + 1)
               (List.length (segments Ex.a_indent_plus_b) - (0 + 1))
     = Some (Ex.operator "+" 1)
  /\ evaluate Ex.a_indent_plus_b
     = [ {| anchor := Some (Ex.operator "+" 1);
            description := Some "Missing whitespace before +";
            fixes := [ {| edit_type := Create; fix_anchor := Ex.operator "+" 1;
                          edit := make_whitespace " " 1 |} ] |};
         {| anchor := Some (Ex.operator "+" 1);
            description := Some "Missing whitespace after +";
            fixes := [ {| edit_type := Create; fix_anchor := Ex.ident "b" 2;
                          edit := make_whitespace " " 2 |} ] |} ].
Proof.
  destruct c5_indents_are_skipped as (Hprev & Hnext & Hscenario).
  split; [|split].
  - rewrite (Hprev (segments Ex.a_indent_plus_b) 2); [reflexivity | simpl; lia].
  - rewrite (Hnext (segments Ex.a_indent_plus_b) 0). reflexivity.
  - refine (proj2 (Hscenario Ex.a_indent_plus_b (Ex.ident "a" 0) (Ex.indent 1)
                             (Ex.operator "+" 1) (Ex.ident "b" 2)
                             _ _ _ _ _ _ _ _ _) _);
      repeat split; reflexivity.
Defined.

(** ** The exceptions of the two side checks *)

(** A child whose resolved previous neighbour shows no gap raises no
    before diagnostic. *)
Lemma no_before_diagnostic (segs : list segment) (idx : nat) (sub_seg : segment) :
  before_gap (scan_prev segs idx) = false ->
  forall r, In r (child_violations segs idx sub_seg) -> ~ is_before_diagnostic r.
Proof.
  intros Hgap r Hin [x Hx].
  destruct (is_whitespace sub_seg) eqn:Hw.
  { now rewrite child_violations_whitespace in Hin. }
  destruct (is_code sub_seg) eqn:Hc.
  2:{ now rewrite child_violations_non_code in Hin. }
  rewrite child_violations_examined in Hin by (split; assumption).
  apply in_app_or in Hin. destruct Hin as [Hin|Hin].
  - destruct (check_before (find_targets sub_seg)); [|destruct Hin].
    unfold before_violations in Hin. rewrite Hgap in Hin. destruct Hin.
  - destruct (check_after (find_targets sub_seg)); [|destruct Hin].
    unfold after_violations in Hin.
    destruct (scan_next _ _ _); [|destruct Hin].
    destruct (after_gap _); [|destruct Hin].
    destruct Hin as [Hr|[]]. subst r. simpl in Hx. injection Hx as Hx.
    discriminate Hx.
Qed.

(** A child whose resolved next neighbour shows no gap raises no after
    diagnostic. *)
Lemma no_after_diagnostic (segs : list segment) (idx : nat) (sub_seg : segment) :
  after_gap (scan_next segs (idx + 1) (List.length segs - (idx + 1))) = false ->
  forall r, In r (child_violations segs idx sub_seg) -> ~ is_after_diagnostic r.
Proof.
  intros Hgap r Hin [x Hx].
  destruct (is_whitespace sub_seg) eqn:Hw.
  { now rewrite child_violations_whitespace in Hin. }
  destruct (is_code sub_seg) eqn:Hc.
  2:{ now rewrite child_violations_non_code in Hin. }
  rewrite child_violations_examined in Hin by (split; assumption).
  apply in_app_or in Hin. destruct Hin as [Hin|Hin].
  - destruct (check_before (find_targets sub_seg)); [|destruct Hin].
    unfold before_violations in Hin.
    destruct (before_gap _); [|destruct Hin].
    destruct Hin as [Hr|[]]. subst r. simpl in Hx. injection Hx as Hx.
    discriminate Hx.
  - destruct (check_after (find_targets sub_seg)); [|destruct Hin].
    unfold after_violations in Hin. rewrite Hgap in Hin.
    now destruct (scan_next _ _ _).
Qed.

(** A child with no gap on either side raises nothing. *)
Lemma child_violations_no_gap (segs : list segment) (idx : nat) (sub_seg : segment) :
  before_gap (scan_prev segs idx) = false ->
  after_gap (scan_next segs (idx + 1) (List.length segs - (idx + 1))) = false ->
  child_violations segs idx sub_seg = [].
Proof.
  intros Hb Ha.
  destruct (is_whitespace sub_seg) eqn:Hw.
  { now apply child_violations_whitespace. }
  destruct (is_code sub_seg) eqn:Hc.
  2:{ now apply child_violations_non_code. }
  rewrite child_violations_examined by (split; assumption).
  unfold before_violations, after_violations. rewrite Hb, Ha.
  destruct (check_before _), (check_after _), (scan_next _ _ _); reflexivity.
Qed.

Lemma before_gap_whitespace (p : segment) :
  is_whitespace p = true -> before_gap (Some p) = false.
Proof. intros H. simpl. now rewrite H. Qed.

Lemma after_gap_whitespace (n : segment) :
  is_whitespace n = true -> after_gap (Some n) = false.
Proof. intros H. simpl. now rewrite H. Qed.

Lemma before_gap_open_bracket (p : segment) :
  endswith (name p) "_bracket" = true -> startswith (name p) "start_" = true ->
  before_gap (Some p) = false.
Proof. intros H1 H2. simpl. rewrite H1, H2. simpl. now rewrite andb_false_r. Qed.

Lemma after_gap_close_bracket (n : segment) :
  endswith (name n) "_bracket" = true -> startswith (name n) "end_" = true ->
  after_gap (Some n) = false.
Proof. intros H1 H2. simpl. rewrite H1, H2. simpl. now rewrite andb_false_r. Qed.

Lemma before_gap_meta (p : segment) :
  is_meta p = true ->
  endswith (source_str p) " " = true \/ endswith (source_str p) newline = true ->
  before_gap (Some p) = false.
Proof.
  intros Hm Hs. simpl. rewrite Hm.
  replace (endswith (source_str p) " " || endswith (source_str p) newline) with true
    by (destruct Hs as [-> | ->]; now rewrite ?orb_true_r).
  simpl. apply andb_false_r.
Qed.

Lemma after_gap_meta (n : segment) :
  is_meta n = true ->
  startswith (source_str n) " " = true \/ startswith (source_str n) newline = true ->
  after_gap (Some n) = false.
Proof.
  intros Hm Hs. simpl. rewrite Hm.
  replace (startswith (source_str n) " " || startswith (source_str n) newline) with true
    by (destruct Hs as [-> | ->]; now rewrite ?orb_true_r).
  simpl. apply andb_false_r.
Qed.

(** C3: a side check whose resolved neighbour is a bracket emits nothing:
    the before check when the neighbour's name ends with "_bracket" and
    starts with "start_", the after check when it ends with "_bracket" and
    starts with "end_". *)
Theorem c3_bracket_neighbour :
  (forall (segs : list segment) (idx : nat) (sub_seg anchor_seg p : segment),
      scan_prev segs idx = Some p ->
      endswith (name p) "_bracket" = true ->
      startswith (name p) "start_" = true ->
      before_violations segs idx sub_seg anchor_seg = []
      /\ forall r, In r (child_violations segs idx sub_seg) -> ~ is_before_diagnostic r)
  /\ (forall (segs : list segment) (idx : nat) (sub_seg anchor_seg n : segment),
      scan_next segs (idx + 1) (List.length segs - (idx + 1)) = Some n ->
      endswith (name n) "_bracket" = true ->
      startswith (name n) "end_" = true ->
      after_violations segs idx anchor_seg = []
      /\ forall r, In r (child_violations segs idx sub_seg) -> ~ is_after_diagnostic r).
Proof.
  split.
  - intros segs idx sub_seg anchor_seg p Hscan Hend Hstart.
    pose proof (before_gap_open_bracket p Hend Hstart) as Hgap.
    split.
    + unfold before_violations. now rewrite Hscan, Hgap.
    + apply no_before_diagnostic. now rewrite Hscan.
  - intros segs idx sub_seg anchor_seg n Hscan Hend Hstart.
    pose proof (after_gap_close_bracket n Hend Hstart) as Hgap.
    split.
    + unfold after_violations. now rewrite Hscan, Hgap.
    + apply no_after_diagnostic. now rewrite Hscan.
Qed.

Lemma c3_bracket_neighbour_witness :
  before_violations Ex.bracketed_plus 1 (Ex.operator "+" 1) (Ex.operator "+" 1) = []
  /\ after_violations Ex.bracketed_plus 1 (Ex.operator "+" 1) = [].
Proof.
  destruct c3_bracket_neighbour as [Hbefore Hafter].
  split.
  - apply (Hbefore _ 1 (Ex.operator "+" 1) (Ex.operator "+" 1) (Ex.open_bracket 0));
      reflexivity.
  - apply (Hafter _ 1 (Ex.operator "+" 1) (Ex.operator "+" 1) (Ex.close_bracket 2));
      reflexivity.
Defined.

(** C4: a before check whose resolved neighbour is a meta segment with a
    [source_str] ending in a space or a newline emits nothing, and an after
    check whose resolved neighbour is a meta segment with a [source_str]
    starting with a space or a newline emits nothing. *)
Theorem c4_template_neighbour :
  (forall (segs : list segment) (idx : nat) (sub_seg anchor_seg p : segment),
      scan_prev segs idx = Some p ->
      is_meta p = true ->
      endswith (source_str p) " " = true \/ endswith (source_str p) newline = true ->
      before_violations segs idx sub_seg anchor_seg = []
      /\ forall r, In r (child_violations segs idx sub_seg) -> ~ is_before_diagnostic r)
  /\ (forall (segs : list segment) (idx : nat) (sub_seg anchor_seg n : segment),
      scan_next segs (idx + 1) (List.length segs - (idx + 1)) = Some n ->
      is_meta n = true ->
      startswith (source_str n) " " = true \/ startswith (source_str n) newline = true ->
      after_violations segs idx anchor_seg = []
      /\ forall r, In r (child_violations segs idx sub_seg) -> ~ is_after_diagnostic r).
Proof.
  split.
  - intros segs idx sub_seg anchor_seg p Hscan Hmeta Hsrc.
    pose proof (before_gap_meta p Hmeta Hsrc) as Hgap.
    split.
    + unfold before_violations. now rewrite Hscan, Hgap.
    + apply no_before_diagnostic. now rewrite Hscan.
  - intros segs idx sub_seg anchor_seg n Hscan Hmeta Hsrc.
    pose proof (after_gap_meta n Hmeta Hsrc) as Hgap.
    split.
    + unfold after_violations. now rewrite Hscan, Hgap.
    + apply no_after_diagnostic. now rewrite Hscan.
Qed.

Lemma c4_template_neighbour_witness :
  before_violations Ex.templated_plus 1 (Ex.operator "+" 1) (Ex.operator "+" 1) = []
  /\ after_violations Ex.templated_plus 1 (Ex.operator "+" 1) = [].
Proof.
  destruct c4_template_neighbour as [Hbefore Hafter].
  split.
  - apply (Hbefore _ 1 (Ex.operator "+" 1) (Ex.operator "+" 1) Ex.opening);
      [reflexivity | reflexivity | right; reflexivity].
  - apply (Hafter _ 1 (Ex.operator "+" 1) (Ex.operator "+" 1) Ex.closing);
      [reflexivity | reflexivity | left; reflexivity].
Defined.

(** C8: a side check whose resolved neighbour is whitespace emits nothing;
    with whitespace on both sides of the middle child of five, as in
    "a", " ", "+", " ", "b", [evaluate] yields no diagnostic, whatever the
    other three children are. *)
Theorem c8_whitespace_neighbour :
  (forall (segs : list segment) (idx : nat) (sub_seg anchor_seg p : segment),
      scan_prev segs idx = Some p ->
      is_whitespace p = true ->
      before_violations segs idx sub_seg anchor_seg = []
      /\ forall r, In r (child_violations segs idx sub_seg) -> ~ is_before_diagnostic r)
  /\ (forall (segs : list segment) (idx : nat) (sub_seg anchor_seg n : segment),
      scan_next segs (idx + 1) (List.length segs - (idx + 1)) = Some n ->
      is_whitespace n = true ->
      after_violations segs idx anchor_seg = []
      /\ forall r, In r (child_violations segs idx sub_seg) -> ~ is_after_diagnostic r)
  /\ (forall node a w1 op w2 b : segment,
      segments node = [a; w1; op; w2; b] ->
      is_whitespace w1 = true -> is_type w1 "indent" = false ->
      is_whitespace w2 = true -> is_type w2 "indent" = false ->
      evaluate node = []).
Proof.
  split; [|split].
  - intros segs idx sub_seg anchor_seg p Hscan Hws.
    pose proof (before_gap_whitespace p Hws) as Hgap.
    split.
    + unfold before_violations. now rewrite Hscan, Hgap.
    + apply no_before_diagnostic. now rewrite Hscan.
  - intros segs idx sub_seg anchor_seg n Hscan Hws.
    pose proof (after_gap_whitespace n Hws) as Hgap.
    split.
    + unfold after_violations. now rewrite Hscan, Hgap.
    + apply no_after_diagnostic. now rewrite Hscan.
  - intros node a w1 op w2 b Hsegs Hw1 Hi1 Hw2 Hi2.
    apply evaluate_nil. rewrite Hsegs. intros idx s Hnth.
    destruct idx as [|[|[|[|[|idx]]]]]; simpl in Hnth;
      try (injection Hnth as <-).
    + apply child_violations_no_gap;
        cbn [scan_prev scan_next nth_error List.length Nat.add Nat.sub];
        rewrite ?Hi1; [reflexivity | now apply after_gap_whitespace].
    + now apply child_violations_whitespace.
    + apply child_violations_no_gap;
        cbn [scan_prev scan_next nth_error List.length Nat.add Nat.sub];
        rewrite ?Hi1, ?Hi2;
        [now apply before_gap_whitespace | now apply after_gap_whitespace].
    + now apply child_violations_whitespace.
    + apply child_violations_no_gap;
        cbn [scan_prev scan_next nth_error List.length Nat.add Nat.sub];
        rewrite ?Hi2; [now apply before_gap_whitespace | reflexivity].
    + now destruct idx.
Qed.

Lemma c8_whitespace_neighbour_witness :
  before_violations (segments Ex.a_sp_plus_sp_b) 2 Ex.plus Ex.plus = []
  /\ after_violations (segments Ex.a_sp_plus_sp_b) 2 Ex.plus = []
  /\ evaluate Ex.a_sp_plus_sp_b = [].
Proof.
  destruct c8_whitespace_neighbour as (Hbefore & Hafter & Hscenario).
  split; [|split].
  - apply (Hbefore _ 2 (Ex.operator "+" 2) (Ex.operator "+" 2) (Ex.space 1));
      reflexivity.
  - apply (Hafter _ 2 (Ex.operator "+" 2) (Ex.operator "+" 2) (Ex.space 3));
      reflexivity.
  - apply (Hscenario Ex.a_sp_plus_sp_b (Ex.ident "a" 0) (Ex.space 1)
                     (Ex.operator "+" 2) (Ex.space 3) (Ex.ident "b" 4));
      reflexivity.
Defined.

(** ** Nothing to report *)

Lemma child_violations_no_target (segs : list segment) (idx : nat) (s : segment) :
  has_target s = false -> child_violations segs idx s = [].
Proof.
  unfold has_target. intros H.
  destruct (is_whitespace s) eqn:Hw.
  { now apply child_violations_whitespace. }
  destruct (is_code s) eqn:Hc.
  2:{ now apply child_violations_non_code. }
  simpl in H. apply orb_false_elim in H as [Hb Ha].
  rewrite child_violations_examined by (split; assumption).
  now rewrite Hb, Ha.
Qed.

(** C6: [evaluate] gives the empty sequence of diagnostics when nothing is
    flagged.  With at most two direct children the rule returns the empty
    [LintResult()], which carries no diagnostic; when no child holds an
    applicable target it returns nothing, and never an error. *)
Theorem c6_nothing_flagged :
  (forall node : segment,
      List.length (segments node) <= 2 ->
      _eval node = ResSingle empty_LintResult /\ evaluate node = [])
  /\ (forall node : segment,
      (forall s, In s (segments node) -> has_target s = false) ->
      (_eval node = ResNone \/ _eval node = ResSingle empty_LintResult)
      /\ evaluate node = []).
Proof.
  split.
  - intros node Hlen.
    assert (H : _eval node = ResSingle empty_LintResult).
    { unfold _eval. apply Nat.leb_le in Hlen. now rewrite Hlen. }
    split; [exact H|]. unfold evaluate. now rewrite H.
  - intros node Hnone.
    assert (Hchild : forall idx s, nth_error (segments node) idx = Some s ->
                                   child_violations (segments node) idx s = []).
    { intros idx s Hnth. apply child_violations_no_target, Hnone.
      now apply nth_error_In in Hnth. }
    split; [|now apply evaluate_nil].
    unfold _eval. destruct (_ <=? _)%nat; [now right|left].
    rewrite collect_violations_range, range_violations_nil by assumption.
    reflexivity.
Qed.

Lemma c6_nothing_flagged_witness :
  evaluate (Ex.parent [Ex.ident "a" 0; Ex.compound [Ex.operator "+" 1; Ex.ident "b" 2] 1])
  = []
  /\ evaluate (Ex.parent [Ex.ident "a" 0; Ex.space 1; Ex.ident "b" 2; Ex.space 3;
                          Ex.ident "c" 4])
     = [].
Proof.
  destruct c6_nothing_flagged as [Hfew Hnone].
  split.
  - apply Hfew. simpl. lia.
  - apply Hnone. intros s Hin. simpl in Hin.
    repeat (destruct Hin as [<-|Hin]; [reflexivity|]). destruct Hin.
Defined.

(** ** Compound children that start with an operator *)

Lemma iter_raw_seg_unfold (seg : segment) :
  iter_raw_seg seg
  = match segments seg with
    | [] => [seg]
    | _ :: _ => flat_map iter_raw_seg (segments seg)
    end.
Proof. now destruct seg. Qed.

Lemma iter_raw_seg_two_leaves (c lead trail : segment) :
  segments c = [lead; trail] -> segments lead = [] -> segments trail = [] ->
  iter_raw_seg c = [lead; trail].
Proof.
  intros Hc Hl Ht.
  rewrite iter_raw_seg_unfold, Hc. cbn [flat_map].
  rewrite (iter_raw_seg_unfold lead), (iter_raw_seg_unfold trail), Hl, Ht.
  reflexivity.
Qed.

(** A compound child "+b" asks for a before check only, anchored at its
    leading leaf. *)
Lemma find_targets_leading (c lead trail : segment) :
  is_operator_target c = false ->
  segments c = [lead; trail] -> segments lead = [] -> segments trail = [] ->
  is_operator_target lead = true -> is_operator_target trail = false ->
  find_targets c = mkChecks true false lead c.
Proof.
  unfold is_operator_target. intros Hnc Hc Hl Ht Hlead Htrail.
  unfold find_targets.
  rewrite Hnc, (iter_raw_seg_two_leaves c lead trail Hc Hl Ht), Hc.
  cbn [List.length Nat.ltb Nat.leb hd last]. now rewrite Hlead, Htrail.
Qed.

(** The claim C2 fails on [a +b] with [+b] one compound child: nothing is
    reported there, where the claim has one "Missing whitespace after +". *)
Lemma c2_counterexample :
  segments Ex.a_space_plusb = [Ex.ident "a" 0; Ex.space 1; Ex.plusb]
  /\ iter_raw_seg Ex.plusb = [Ex.plus; Ex.b]
  /\ is_operator_target Ex.plus = true
  /\ is_operator_target Ex.b = false
  /\ evaluate Ex.a_space_plusb = []
  /\ ~ (exists r, evaluate Ex.a_space_plusb = [r]
                  /\ description r = Some "Missing whitespace after +"
                  /\ anchor r = Some Ex.plus).
Proof.
  repeat split; try reflexivity.
  intros [r [H _]]. vm_compute in H. discriminate H.
Qed.

(** C2, amended: with the children "a", " ", "+b", where "+b" is a
    compound child whose first leaf is an operator and whose second leaf is
    not, the rule asks only for a before check, anchored at the leaf "+";
    that check finds the whitespace, and [evaluate] yields no diagnostic. *)
Theorem c2_leading_operator_after_whitespace :
  forall node a w c lead trail : segment,
    segments node = [a; w; c] ->
    is_whitespace w = true -> is_type w "indent" = false ->
    is_operator_target c = false ->
    segments c = [lead; trail] -> segments lead = [] -> segments trail = [] ->
    is_operator_target lead = true -> is_operator_target trail = false ->
    find_targets c = mkChecks true false lead c
    /\ evaluate node = [].
Proof.
  intros node a w c lead trail Hsegs Hw Hi Hnc Hc Hl Ht Hlead Htrail.
  split; [now apply find_targets_leading with (trail := trail)|].
  apply evaluate_nil. rewrite Hsegs. intros idx s Hnth.
  destruct idx as [|[|[|idx]]]; simpl in Hnth; try (injection Hnth as <-).
  - apply child_violations_no_gap;
      cbn [scan_prev scan_next nth_error List.length Nat.add Nat.sub];
      rewrite ?Hi; [reflexivity | now apply after_gap_whitespace].
  - now apply child_violations_whitespace.
  - apply child_violations_no_gap;
      cbn [scan_prev scan_next nth_error List.length Nat.add Nat.sub];
      rewrite ?Hi; [now apply before_gap_whitespace | reflexivity].
  - now destruct idx.
Qed.

Lemma c2_leading_operator_after_whitespace_witness :
  find_targets Ex.plusb = mkChecks true false Ex.plus Ex.plusb
  /\ evaluate Ex.a_space_plusb = [].
Proof.
  apply (c2_leading_operator_after_whitespace
           Ex.a_space_plusb (Ex.ident "a" 0) (Ex.space 1) Ex.plusb Ex.plus Ex.b);
    reflexivity.
Defined.

(** The claim C7 fails on [(a+b] with [+b] one compound child: the
    neighbour of "+b" is "a", not the bracket, and the gap before "+" is
    reported. *)
Lemma c7_counterexample :
  segments Ex.bracket_a_plusb = [Ex.open_bracket 0; Ex.ident "a" 1; Ex.plusb]
  /\ hd Ex.plusb (iter_raw_seg Ex.plusb) = Ex.plus
  /\ is_operator_target Ex.plus = true
  /\ evaluate Ex.bracket_a_plusb
     = [ {| anchor := Some Ex.plus;
            description := Some "Missing whitespace before +";
            fixes := [mkLintFix Create Ex.plusb (make_whitespace " " 2)] |} ]
  /\ exists r, In r (evaluate Ex.bracket_a_plusb)
               /\ is_before_diagnostic r /\ anchor r = Some Ex.plus.
Proof.
  repeat split; try reflexivity.
  eexists. split; [left; reflexivity|].
  split; [now exists "+" | reflexivity].
Qed.

(** C7, amended: the bracket exception holds when the opening bracket is
    the resolved neighbour of the operator-leading compound: with the
    children "a", "(", "+b" no before diagnostic is raised for the "+"
    (and nothing else either).  With the children "(", "a", "+b" the
    resolved neighbour is "a" and the gap before "+" is reported, anchored
    at the leaf "+", its fix anchored at the compound child. *)
Theorem c7_bracket_next_to_compound :
  forall a br c lead trail : segment,
    plain_leaf a -> substantive a ->
    plain_leaf br -> is_type br "indent" = false ->
    endswith (name br) "_bracket" = true -> startswith (name br) "start_" = true ->
    examined c -> is_operator_target c = false ->
    segments c = [lead; trail] -> segments lead = [] -> segments trail = [] ->
    is_operator_target lead = true -> is_operator_target trail = false ->
    (forall node, segments node = [a; br; c] -> evaluate node = [])
    /\ (forall node, segments node = [br; a; c] ->
                     evaluate node = [before_result c lead]).
Proof.
  intros a br c lead trail Hpa Hsa Hpbr Hibr Hend Hstart Hex Hnc Hc Hl Ht Hlead Htrail.
  pose proof (find_targets_leading c lead trail Hnc Hc Hl Ht Hlead Htrail) as Hfind.
  split; intros node Hsegs; rewrite evaluate_unfold, Hsegs;
    unfold range_violations; cbn [List.length Nat.leb seq flat_map nth_error];
    rewrite (child_violations_plain _ _ _ Hpa), (child_violations_plain _ _ _ Hpbr);
    rewrite (child_violations_examined _ _ _ Hex), Hfind;
    cbn [check_before check_after before_anchor after_anchor];
    run_scans.
  - rewrite Hibr, (before_gap_open_bracket br Hend Hstart). reflexivity.
  - destruct Hsa as (Hwa & Hia & Hba & Hma). rewrite Hia.
    rewrite (before_gap_substantive a) by (repeat split; assumption).
    reflexivity.
Qed.

Lemma c7_bracket_next_to_compound_witness :
  evaluate Ex.a_bracket_plusb = []
  /\ evaluate Ex.bracket_a_plusb = [before_result Ex.plusb Ex.plus].
Proof.
  split.
  - refine (proj1 (c7_bracket_next_to_compound
                     (Ex.ident "a" 0) (Ex.open_bracket 1)
                     Ex.plusb Ex.plus Ex.b
                     _ _ _ _ _ _ _ _ _ _ _ _ _) Ex.a_bracket_plusb _);
      repeat split; reflexivity.
  - refine (proj2 (c7_bracket_next_to_compound
                     (Ex.ident "a" 1) (Ex.open_bracket 0)
                     Ex.plusb Ex.plus Ex.b
                     _ _ _ _ _ _ _ _ _ _ _ _ _) Ex.bracket_a_plusb _);
      repeat split; reflexivity.
Defined.

(** ** Order of the diagnostics *)

Lemma range_violations_cons (segs : list segment) (start len : nat) :
  range_violations segs start (S len)
  = match nth_error segs start with
    | Some sub_seg => child_violations segs start sub_seg
    | None => []
    end ++ range_violations segs (S start) len.
Proof. reflexivity. Qed.

Lemma Forall2_repeat (segs : list segment) (idx : nat) (l : list LintResult) :
  (forall r, In r l -> raised_by segs idx r) ->
  Forall2 (raised_by segs) (repeat idx (List.length l)) l.
Proof.
  induction l as [|r l IH]; intros H; simpl; constructor.
  - apply H. now left.
  - apply IH. intros r' Hr'. apply H. now right.
Qed.

Lemma StronglySorted_repeat_app (start n : nat) (idxs : list nat) :
  StronglySorted le idxs -> Forall (le start) idxs ->
  StronglySorted le (repeat start n ++ idxs).
Proof.
  intros Hs Hl. induction n as [|n IH]; simpl; [assumption|].
  constructor; [assumption|].
  apply Forall_app. split; [|assumption].
  apply Forall_forall. intros x Hx. apply repeat_spec in Hx. lia.
Qed.

(** The diagnostics of a range of children can be labelled with the
    indices of the children that raised them, and the labels never
    decrease. *)
Lemma range_violations_trace (segs : list segment) (len start : nat) :
  exists idxs,
    Forall2 (raised_by segs) idxs (range_violations segs start len)
    /\ StronglySorted le idxs /\ Forall (le start) idxs.
Proof.
  revert start. induction len as [|len IH]; intros start.
  - exists []. repeat split; constructor.
  - destruct (IH (S start)) as (idxs & HF & HS & HL).
    assert (HL' : Forall (le start) idxs).
    { eapply Forall_impl; [|exact HL]. intros; simpl in *; lia. }
    rewrite range_violations_cons.
    destruct (nth_error segs start) as [sub_seg|] eqn:Hnth.
    + exists (repeat start (List.length (child_violations segs start sub_seg)) ++ idxs).
      split; [|split].
      * apply Forall2_app; [|assumption].
        apply Forall2_repeat. intros r Hr. now exists sub_seg.
      * now apply StronglySorted_repeat_app.
      * apply Forall_app. split; [|assumption].
        apply Forall_forall. intros x Hx. apply repeat_spec in Hx. lia.
    + exists idxs. auto.
Qed.

(** The diagnostics of the child at [idx] sit between those of the
    children before it and those of the children after it. *)
Lemma range_violations_block (segs : list segment) (idx : nat) (sub_seg : segment) :
  nth_error segs idx = Some sub_seg ->
  range_violations segs 0 (List.length segs)
  = range_violations segs 0 idx
    ++ child_violations segs idx sub_seg
    ++ range_violations segs (S idx) (List.length segs - S idx).
Proof.
  intros Hnth.
  assert (Hlt : idx < List.length segs) by (apply nth_error_Some; congruence).
  replace (List.length segs) with (idx + S (List.length segs - S idx)) at 1 by lia.
  rewrite range_violations_app, range_violations_cons. simpl.
  now rewrite Hnth.
Qed.

(** C10: the diagnostics of [evaluate] come in the order of the children
    that raise them: they can be labelled with the raising children's
    indices so that the labels never decrease, the diagnostics of one child
    lie between those of the earlier and those of the later children, and
    a child raises at most a "Missing whitespace before" diagnostic
    directly followed by at most a "Missing whitespace after" one. *)
Theorem c10_diagnostics_in_child_order :
  (forall node : segment,
      exists idxs : list nat,
        Forall2 (raised_by (segments node)) idxs (evaluate node)
        /\ StronglySorted le idxs)
  /\ (forall (node : segment) (idx : nat) (sub_seg : segment),
      2 < List.length (segments node) ->
      nth_error (segments node) idx = Some sub_seg ->
      exists B A,
        child_violations (segments node) idx sub_seg = B ++ A
        /\ evaluate node
           = range_violations (segments node) 0 idx
             ++ (B ++ A)
             ++ range_violations (segments node) (S idx)
                                 (List.length (segments node) - S idx)
        /\ (B = [] \/ exists b, B = [b] /\ is_before_diagnostic b)
        /\ (A = [] \/ exists a, A = [a] /\ is_after_diagnostic a)).
Proof.
  split.
  - intros node. rewrite evaluate_unfold.
    destruct (_ <=? _)%nat.
    + exists []. split; constructor.
    + destruct (range_violations_trace (segments node)
                  (List.length (segments node)) 0) as (idxs & HF & HS & _).
      now exists idxs.
  - intros node idx sub_seg Hlen Hnth.
    destruct (child_violations_shape (segments node) idx sub_seg)
      as (B & A & HBA & HB & HA).
    exists B, A. split; [assumption|]. split; [|split].
    + rewrite evaluate_unfold.
      replace (_ <=? _)%nat with false by (symmetry; apply Nat.leb_gt; lia).
      rewrite <- HBA. now apply range_violations_block.
    + destruct HB as [->| ->]; [now left|right].
      eexists. split; [reflexivity|]. now eexists.
    + destruct HA as [->|[n ->]]; [now left|right].
      eexists. split; [reflexivity|]. now eexists.
Qed.

Lemma c10_diagnostics_in_child_order_witness :
  exists B A,
    child_violations (segments Ex.a_plus_b) 1 (Ex.operator "+" 1) = B ++ A
    /\ evaluate Ex.a_plus_b
       = range_violations (segments Ex.a_plus_b) 0 1 ++ (B ++ A)
         ++ range_violations (segments Ex.a_plus_b) 2 (3 - 2)
    /\ (B = [] \/ exists b, B = [b] /\ is_before_diagnostic b)
    /\ (A = [] \/ exists a, A = [a] /\ is_after_diagnostic a).
Proof.
  apply (proj2 c10_diagnostics_in_child_order Ex.a_plus_b 1 (Ex.operator "+" 1)).
  - simpl. lia.
  - reflexivity.
Defined.

(** ** Applying the proposed fixes *)

Lemma segment_eqb_refl (s : segment) : segment_eqb s s = true.
Proof. unfold segment_eqb. now destruct (segment_eq_dec s s). Qed.

Lemma first_non_indent_cons (x : segment) (l : list segment) :
  first_non_indent (x :: l)
  = if is_type x "indent" then first_non_indent l else Some x.
Proof. unfold first_non_indent. simpl. now destruct (is_type x "indent"). Qed.

Lemma in_range_violations (segs : list segment) (start len : nat) (r : LintResult) :
  In r (range_violations segs start len) <->
  exists idx sub_seg,
    start <= idx < start + len /\ nth_error segs idx = Some sub_seg
    /\ In r (child_violations segs idx sub_seg).
Proof.
  unfold range_violations. rewrite in_flat_map. split.
  - intros (idx & Hidx & Hr). apply in_seq in Hidx.
    destruct (nth_error segs idx) as [sub_seg|] eqn:E; [|destruct Hr].
    now exists idx, sub_seg.
  - intros (idx & sub_seg & Hidx & Hnth & Hr).
    exists idx. split; [now apply in_seq|]. now rewrite Hnth.
Qed.

Lemma in_evaluate (node : segment) (r : LintResult) :
  In r (evaluate node) <->
  2 < List.length (segments node)
  /\ exists idx sub_seg,
      nth_error (segments node) idx = Some sub_seg
      /\ In r (child_violations (segments node) idx sub_seg).
Proof.
  rewrite evaluate_unfold.
  destruct (_ <=? _)%nat eqn:Hlen.
  - apply Nat.leb_le in Hlen. split; [intros [] | intros [H _]; lia].
  - apply Nat.leb_gt in Hlen. rewrite in_range_violations. split.
    + intros (idx & sub_seg & _ & Hnth & Hr). split; [assumption|].
      now exists idx, sub_seg.
    + intros (_ & idx & sub_seg & Hnth & Hr). exists idx, sub_seg.
      repeat split; try assumption; try lia.
      apply nth_error_Some. congruence.
Qed.

(** Every fix the rule proposes creates a one-space whitespace segment. *)
Lemma proposed_fixes_spaces (node : segment) : spaces_only (proposed_fixes node).
Proof.
  intros f Hf. unfold proposed_fixes in Hf.
  apply in_flat_map in Hf as (r & Hr & Hf).
  apply in_evaluate in Hr as (_ & idx & sub_seg & _ & Hr).
  destruct (child_violations_shape (segments node) idx sub_seg)
    as (B & A & HBA & HB & HA).
  rewrite HBA in Hr. apply in_app_or in Hr as [Hr|Hr].
  - destruct HB as [->| ->]; [destruct Hr|].
    destruct Hr as [<-|[]]. destruct Hf as [<-|[]]. now split.
  - destruct HA as [->|[n ->]]; [destruct Hr|].
    destruct Hr as [<-|[]]. destruct Hf as [<-|[]]. now split.
Qed.

Lemma created_before_nonempty (fs : list LintFix) (f : LintFix) (child : segment) :
  In f fs -> edit_type f = Create -> fix_anchor f = child ->
  created_before fs child <> [].
Proof.
  intros Hin Hk Ha Hnil.
  assert (H : In (edit f) (created_before fs child)).
  { unfold created_before. apply in_map, filter_In. split; [assumption|].
    now rewrite Hk, Ha, segment_eqb_refl. }
  now rewrite Hnil in H.
Qed.

Lemma apply_fixes_nil (l : list segment) : apply_fixes [] l = l.
Proof.
  unfold apply_fixes. induction l as [|x l IH]; simpl; [reflexivity|].
  f_equal. exact IH.
Qed.

Lemma apply_fixes_cons (fs : list LintFix) (x : segment) (l : list segment) :
  apply_fixes fs (x :: l) = created_before fs x ++ x :: apply_fixes fs l.
Proof. unfold apply_fixes. simpl. now rewrite <- app_assoc. Qed.

Lemma apply_fixes_app (fs : list LintFix) (l1 l2 : list segment) :
  apply_fixes fs (l1 ++ l2) = apply_fixes fs l1 ++ apply_fixes fs l2.
Proof. unfold apply_fixes. apply flat_map_app. Qed.

Lemma apply_fixes_snoc (fs : list LintFix) (l : list segment) (x : segment) :
  apply_fixes fs (l ++ [x]) = apply_fixes fs l ++ created_before fs x ++ [x].
Proof. unfold apply_fixes. rewrite flat_map_app. simpl. now rewrite app_nil_r. Qed.

(** Where an element of [ws ++ x :: rest] can sit. *)
Lemma split_around (ws : list segment) (x : segment) (rest l1 : list segment)
      (e : segment) (l2 : list segment) :
  ws ++ x :: rest = l1 ++ e :: l2 ->
  In e ws
  \/ (l1 = ws /\ e = x /\ l2 = rest)
  \/ exists mid, l1 = ws ++ x :: mid /\ rest = mid ++ e :: l2.
Proof.
  revert l1. induction ws as [|w ws IH]; intros l1 H; simpl in H.
  - destruct l1 as [|y l1]; simpl in H; injection H as -> ->.
    + right. left. auto.
    + right. right. now exists l1.
  - destruct l1 as [|y l1]; simpl in H; injection H as -> H.
    + left. now left.
    + destruct (IH l1 H) as [Hin|[(-> & -> & ->)|(mid & -> & ->)]].
      * left. now right.
      * right. left. auto.
      * right. right. now exists mid.
Qed.

Section ApplyFixes.

Variable fs : list LintFix.
Hypothesis Hspaces : spaces_only fs.

Lemma created_before_space (child w : segment) :
  In w (created_before fs child) ->
  is_whitespace w = true /\ is_type w "indent" = false.
Proof.
  unfold created_before. intros H.
  apply in_map_iff in H as (f & <- & Hf).
  apply filter_In in Hf as [Hf _]. now apply Hspaces.
Qed.

(** A created segment stops the scan that meets it. *)
Lemma first_non_indent_created (ws rest : list segment) :
  (forall w, In w ws -> is_whitespace w = true /\ is_type w "indent" = false) ->
  first_non_indent (ws ++ rest)
  = match ws with [] => first_non_indent rest | w :: _ => Some w end.
Proof.
  destruct ws as [|w ws]; [reflexivity|]. intros H.
  rewrite <- app_comm_cons, first_non_indent_cons.
  destruct (H w (or_introl eq_refl)) as [_ Hi]. now rewrite Hi.
Qed.

(** The split of the fixed child list at one of its elements: the
    element is a created segment, or a child of the original list, found
    between the fixed children before it, followed by the segments
    created before it, and the fixed children after it. *)
Lemma apply_fixes_split (l l1' : list segment) (e : segment) (l2' : list segment) :
  apply_fixes fs l = l1' ++ e :: l2' ->
  is_whitespace e = true
  \/ exists l1 l2,
      l = l1 ++ e :: l2
      /\ l1' = apply_fixes fs l1 ++ created_before fs e
      /\ l2' = apply_fixes fs l2.
Proof.
  revert l1'. induction l as [|x l IH]; intros l1' H.
  - destruct l1'; discriminate H.
  - rewrite apply_fixes_cons in H.
    apply split_around in H as [Hin|[(-> & -> & ->)|(mid & -> & Hrest)]].
    + left. now apply (created_before_space x).
    + right. now exists [], l.
    + destruct (IH mid Hrest) as [Hw|(l1 & l2 & -> & -> & ->)]; [now left|].
      right. exists (x :: l1), l2. repeat split.
      rewrite apply_fixes_cons, <- app_assoc. reflexivity.
Qed.

(** Scanning forward through a fixed list meets a created whitespace, or
    the neighbour met in the original list, before which nothing was
    created. *)
Lemma first_non_indent_applied (l : list segment) :
  (exists w, first_non_indent (apply_fixes fs l) = Some w /\ is_whitespace w = true)
  \/ (first_non_indent (apply_fixes fs l) = first_non_indent l
      /\ forall n, first_non_indent l = Some n -> created_before fs n = []).
Proof.
  induction l as [|x l IH].
  - right. split; [reflexivity | discriminate].
  - rewrite apply_fixes_cons.
    rewrite first_non_indent_created by apply created_before_space.
    destruct (created_before fs x) as [|w ws] eqn:E.
    + rewrite !first_non_indent_cons.
      destruct (is_type x "indent"); [exact IH|].
      right. split; [reflexivity|]. now intros n [= <-].
    + left. exists w. split; [reflexivity|].
      apply (created_before_space x). rewrite E. now left.
Qed.

(** Scanning backward through a fixed list meets a created whitespace,
    or the neighbour met in the original list. *)
Lemma first_non_indent_rev_applied (l : list segment) :
  (exists w, first_non_indent (rev (apply_fixes fs l)) = Some w
             /\ is_whitespace w = true)
  \/ first_non_indent (rev (apply_fixes fs l)) = first_non_indent (rev l).
Proof.
  induction l as [|x l IH] using rev_ind; [now right|].
  rewrite apply_fixes_snoc, !rev_app_distr. cbn [rev app].
  rewrite !first_non_indent_cons.
  destruct (is_type x "indent"); [|now right].
  rewrite first_non_indent_created
    by (intros w Hw; apply in_rev in Hw; now apply (created_before_space x)).
  destruct (rev (created_before fs x)) as [|w ws] eqn:E; [exact IH|].
  left. exists w. split; [reflexivity|].
  apply (created_before_space x), in_rev. rewrite E. now left.
Qed.

Variable segs : list segment.

(** Every gap reported before a child has a fix anchored at the child,
    and every gap reported after it has a fix anchored at the
    neighbour. *)
Hypothesis Hbefore_fixed :
  forall l1 s l2,
    segs = l1 ++ s :: l2 -> examined s ->
    check_before (find_targets s) = true ->
    before_gap (first_non_indent (rev l1)) = true ->
    created_before fs s <> [].
Hypothesis Hafter_fixed :
  forall l1 s l2 n,
    segs = l1 ++ s :: l2 -> examined s ->
    check_after (find_targets s) = true ->
    first_non_indent l2 = Some n -> after_gap (Some n) = true ->
    created_before fs n <> [].

(** In the fixed child list no child raises a diagnostic. *)
Lemma applied_child_clean (idx : nat) (e : segment) :
  nth_error (apply_fixes fs segs) idx = Some e ->
  child_violations (apply_fixes fs segs) idx e = [].
Proof.
  intros Hnth. apply nth_error_split in Hnth as (l1' & l2' & Heq & Hlen).
  destruct (apply_fixes_split segs l1' e l2' Heq)
    as [Hw|(l1 & l2 & Hsegs & Hl1 & Hl2)].
  { now apply child_violations_whitespace. }
  destruct (is_whitespace e) eqn:Hw.
  { now apply child_violations_whitespace. }
  destruct (is_code e) eqn:Hc.
  2:{ now apply child_violations_non_code. }
  assert (Hex : examined e) by now split.
  rewrite (child_violations_examined _ _ _ Hex), Heq, <- Hlen.
  rewrite before_violations_split, after_violations_split.
  assert (Hb : check_before (find_targets e) = true ->
               before_gap (first_non_indent (rev l1')) = false).
  { intros Hcheck. rewrite Hl1, rev_app_distr.
    rewrite first_non_indent_created
      by (intros w Hw'; apply in_rev in Hw'; now apply (created_before_space e)).
    destruct (rev (created_before fs e)) as [|w ws] eqn:E.
    - destruct (first_non_indent_rev_applied l1) as [(w & -> & Hww)| ->].
      + now apply before_gap_whitespace.
      + destruct (before_gap (first_non_indent (rev l1))) eqn:Hgap; [|reflexivity].
        exfalso. apply (Hbefore_fixed l1 e l2 Hsegs Hex Hcheck Hgap).
        rewrite <- (rev_involutive (created_before fs e)), E. reflexivity.
    - apply before_gap_whitespace, (created_before_space e), in_rev.
      rewrite E. now left. }
  assert (Ha : check_after (find_targets e) = true ->
               forall n, first_non_indent l2' = Some n -> after_gap (Some n) = false).
  { intros Hcheck n Hn. rewrite Hl2 in Hn.
    destruct (first_non_indent_applied l2) as [(w & Hw' & Hww)|[Hsame Hnone]].
    - rewrite Hw' in Hn. injection Hn as <-. now apply after_gap_whitespace.
    - rewrite Hsame in Hn.
      destruct (after_gap (Some n)) eqn:Hgap; [|reflexivity].
      exfalso. apply (Hafter_fixed l1 e l2 n Hsegs Hex Hcheck Hn Hgap).
      now apply Hnone. }
  destruct (check_before (find_targets e)); [rewrite Hb by reflexivity|];
    (destruct (check_after (find_targets e)); [|reflexivity]);
    (destruct (first_non_indent l2') as [n|]; [|reflexivity]);
    now rewrite (Ha eq_refl n eq_refl).
Qed.

End ApplyFixes.

Lemma before_gap_has_fix (node : segment) (l1 : list segment) (s : segment)
      (l2 : list segment) :
  2 < List.length (segments node) ->
  segments node = l1 ++ s :: l2 -> examined s ->
  check_before (find_targets s) = true ->
  before_gap (first_non_indent (rev l1)) = true ->
  created_before (proposed_fixes node) s <> [].
Proof.
  intros Hlen Hsegs Hex Hcheck Hgap.
  apply created_before_nonempty
    with (f := mkLintFix Create s (make_whitespace " " (pos_marker s)));
    [|reflexivity|reflexivity].
  unfold proposed_fixes. apply in_flat_map.
  exists (before_result s (before_anchor (find_targets s))).
  split; [|now left].
  apply in_evaluate. split; [assumption|].
  exists (List.length l1), s. rewrite Hsegs. split; [apply nth_error_middle|].
  rewrite (child_violations_examined _ _ _ Hex), Hcheck.
  rewrite before_violations_split, Hgap.
  apply in_or_app. left. now left.
Qed.

Lemma after_gap_has_fix (node : segment) (l1 : list segment) (s : segment)
      (l2 : list segment) (n : segment) :
  2 < List.length (segments node) ->
  segments node = l1 ++ s :: l2 -> examined s ->
  check_after (find_targets s) = true ->
  first_non_indent l2 = Some n -> after_gap (Some n) = true ->
  created_before (proposed_fixes node) n <> [].
Proof.
  intros Hlen Hsegs Hex Hcheck Hnext Hgap.
  apply created_before_nonempty
    with (f := mkLintFix Create n (make_whitespace " " (pos_marker n)));
    [|reflexivity|reflexivity].
  unfold proposed_fixes. apply in_flat_map.
  exists (after_result n (after_anchor (find_targets s))).
  split; [|now left].
  apply in_evaluate. split; [assumption|].
  exists (List.length l1), s. rewrite Hsegs. split; [apply nth_error_middle|].
  rewrite (child_violations_examined _ _ _ Hex), Hcheck.
  rewrite after_violations_split, Hnext, Hgap.
  apply in_or_app. right. now left.
Qed.

Lemma apply_fixes_keeps (fs : list LintFix) (segs : list segment) (idx : nat)
      (sub_seg : segment) :
  nth_error segs idx = Some sub_seg ->
  exists idx', idx <= idx' /\ nth_error (apply_fixes fs segs) idx' = Some sub_seg.
Proof.
  intros Hnth. apply nth_error_split in Hnth as (l1 & l2 & -> & <-).
  exists (List.length (apply_fixes fs l1 ++ created_before fs sub_seg)).
  split.
  - rewrite length_app.
    assert (H : List.length l1 <= List.length (apply_fixes fs l1)).
    { clear. induction l1 as [|x l1 IH]; [reflexivity|].
      rewrite apply_fixes_cons, length_app. simpl. lia. }
    lia.
  - rewrite apply_fixes_app, apply_fixes_cons, app_assoc.
    apply nth_error_middle.
Qed.

(** A tree that is changed by its fixes: [a+b] with an indent marker. *)
Example fix_all_a_indent_plus_b :
  segments (fix_all Ex.a_indent_plus_b)
  = [Ex.ident "a" 0; Ex.indent 1; Ex.space 1; Ex.operator "+" 1; Ex.space 2;
     Ex.ident "b" 2].
Proof. reflexivity. Qed.

(** C9: after all the fixes proposed by [evaluate] have been applied, each
    inserting its one-space whitespace segment immediately before its
    anchor in the parent's child list, every child of the parent is still
    there and [evaluate] on the resulting tree yields no diagnostic, so
    none for the positions flagged before. *)
Theorem c9_fixes_leave_nothing_to_report :
  forall node : segment,
    evaluate (fix_all node) = []
    /\ forall idx sub_seg,
        nth_error (segments node) idx = Some sub_seg ->
        exists idx',
          idx <= idx' /\ nth_error (segments (fix_all node)) idx' = Some sub_seg.
Proof.
  intros node. split.
  - destruct (Nat.leb_spec (List.length (segments node)) 2) as [Hle|Hgt].
    + assert (Hnone : proposed_fixes node = []).
      { unfold proposed_fixes. rewrite evaluate_unfold.
        apply Nat.leb_le in Hle. now rewrite Hle. }
      rewrite evaluate_unfold. unfold fix_all.
      rewrite Hnone, apply_fixes_nil. cbn [segments with_segments].
      apply Nat.leb_le in Hle. now rewrite Hle.
    + apply evaluate_nil. unfold fix_all. cbn [segments with_segments].
      intros idx e. apply applied_child_clean.
      * apply proposed_fixes_spaces.
      * intros l1 s l2. now apply before_gap_has_fix.
      * intros l1 s l2 n. now apply after_gap_has_fix.
  - intros idx sub_seg. unfold fix_all. cbn [segments with_segments].
    apply apply_fixes_keeps.
Qed.

(** ** Further properties of the rule *)

(** *** Where the diagnostics are anchored *)



(** What a diagnostic found in a child's block is. *)
Lemma in_child_violations (segs : list segment) (idx : nat) (s : segment)
      (r : LintResult) :
  In r (child_violations segs idx s) ->
  examined s
  /\ ((check_before (find_targets s) = true
       /\ before_gap (scan_prev segs idx) = true
       /\ r = before_result s (before_anchor (find_targets s)))
      \/ (check_after (find_targets s) = true
          /\ exists n,
              scan_next segs (idx + 1) (List.length segs - (idx + 1)) = Some n
              /\ after_gap (Some n) = true
              /\ r = after_result n (after_anchor (find_targets s)))).
Proof.
  intros Hin.
  destruct (is_whitespace s) eqn:Hw.
  { now rewrite child_violations_whitespace in Hin. }
  destruct (is_code s) eqn:Hc.
  2:{ now rewrite child_violations_non_code in Hin. }
  assert (Hex : examined s) by now split.
  split; [assumption|].
  rewrite (child_violations_examined _ _ _ Hex) in Hin.
  apply in_app_or in Hin as [Hin|Hin].
  - left. destruct (check_before (find_targets s)); [|destruct Hin].
    unfold before_violations in Hin.
    destruct (before_gap (scan_prev segs idx)); [|destruct Hin].
    destruct Hin as [<-|[]]. auto.
  - right. destruct (check_after (find_targets s)); [|destruct Hin].
    unfold after_violations in Hin.
    destruct (scan_next _ _ _) as [n|] eqn:Hn; [|destruct Hin].
    destruct (after_gap (Some n)) eqn:Hgap; [|destruct Hin].
    destruct Hin as [<-|[]]. split; [reflexivity|]. now exists n.
Qed.



(** *** The fixes *)

Lemma scan_next_In (segs : list segment) (fuel j : nat) (n : segment) :
  scan_next segs j fuel = Some n -> In n segs /\ is_type n "indent" = false.
Proof.
  revert j. induction fuel as [|fuel IH]; intros j H; simpl in H; [discriminate|].
  destruct (nth_error segs j) as [s|] eqn:Hnth; [|discriminate].
  destruct (is_type s "indent") eqn:Hi; [now apply (IH (S j))|].
  injection H as <-. split; [now apply nth_error_In in Hnth | assumption].
Qed.

Lemma scan_prev_In (segs : list segment) (idx : nat) (p : segment) :
  scan_prev segs idx = Some p -> In p segs /\ is_type p "indent" = false.
Proof.
  induction idx as [|j IH]; intros H; simpl in H; [discriminate|].
  destruct (nth_error segs j) as [s|] eqn:Hnth; [|discriminate].
  destruct (is_type s "indent") eqn:Hi; [now apply IH|].
  injection H as <-. split; [now apply nth_error_In in Hnth | assumption].
Qed.

Lemma after_gap_not_whitespace (n : segment) :
  after_gap (Some n) = true -> is_whitespace n = false.
Proof. simpl. now destruct (is_whitespace n). Qed.

(** X2: every diagnostic of [evaluate] carries exactly one fix; the fix
    creates a one-space whitespace leaf at the position of its anchor, and
    the anchor of the fix is a direct child of the evaluated segment that
    is not whitespace. *)
Theorem x2_one_create_fix_in_parent :
  forall (node : segment) (r : LintResult),
    In r (evaluate node) ->
    exists f,
      fixes r = [f]
      /\ edit_type f = Create
      /\ edit f = make_whitespace " " (pos_marker (fix_anchor f))
      /\ In (fix_anchor f) (segments node)
      /\ is_whitespace (fix_anchor f) = false.
Proof.
  intros node r Hr.
  apply in_evaluate in Hr as (_ & idx & sub_seg & Hnth & Hr).
  apply in_child_violations in Hr as (Hex & [(_ & _ & ->)|(_ & n & Hn & Hgap & ->)]).
  - eexists. split; [reflexivity|]. repeat split.
    + now apply nth_error_In in Hnth.
    + apply Hex.
  - eexists. split; [reflexivity|]. repeat split.
    + now apply scan_next_In in Hn.
    + now apply after_gap_not_whitespace.
Qed.

Lemma x2_one_create_fix_in_parent_witness :
  exists f,
    fixes (after_result (Ex.ident "b" 2) (Ex.operator "+" 1)) = [f]
    /\ edit_type f = Create
    /\ edit f = make_whitespace " " (pos_marker (fix_anchor f))
    /\ In (fix_anchor f) (segments Ex.a_plus_b)
    /\ is_whitespace (fix_anchor f) = false.
Proof.
  apply (x2_one_create_fix_in_parent
           Ex.a_plus_b (after_result (Ex.ident "b" 2) (Ex.operator "+" 1))).
  right. left. reflexivity.
Defined.

(** *** The ends of the child list *)

Lemma scan_prev_only_indents (segs : list segment) (idx : nat) :
  (forall j s, j < idx -> nth_error segs j = Some s -> is_type s "indent" = true) ->
  scan_prev segs idx = None.
Proof.
  induction idx as [|j IH]; intros H; [reflexivity|]. simpl.
  destruct (nth_error segs j) as [s|] eqn:Hnth; [|reflexivity].
  rewrite (H j s) by (auto; lia). apply IH. intros k t Hk. apply H. lia.
Qed.

Lemma scan_next_only_indents (segs : list segment) (fuel start : nat) :
  (forall j s, start <= j -> nth_error segs j = Some s -> is_type s "indent" = true) ->
  scan_next segs start fuel = None.
Proof.
  revert start. induction fuel as [|fuel IH]; intros start H; [reflexivity|]. simpl.
  destruct (nth_error segs start) as [s|] eqn:Hnth; [|reflexivity].
  rewrite (H start s) by (auto; lia). apply IH. intros k t Hk. apply H. lia.
Qed.

(** X3: a child with nothing but indents before it raises no "Missing
    whitespace before" diagnostic, and a child with nothing but indents
    after it raises no "Missing whitespace after" diagnostic; so the first
    child never reports a gap before it and the last child never one
    after it. *)
Theorem x3_no_gap_past_the_ends :
  forall (segs : list segment) (idx : nat) (sub_seg : segment) (r : LintResult),
    In r (child_violations segs idx sub_seg) ->
    ((forall j s, j < idx -> nth_error segs j = Some s -> is_type s "indent" = true) ->
     ~ is_before_diagnostic r)
    /\ ((forall j s, idx < j -> nth_error segs j = Some s -> is_type s "indent" = true) ->
        ~ is_after_diagnostic r).
Proof.
  intros segs idx sub_seg r Hr. split; intros H.
  - apply (no_before_diagnostic segs idx sub_seg); [|assumption].
    now rewrite scan_prev_only_indents.
  - apply (no_after_diagnostic segs idx sub_seg); [|assumption].
    rewrite scan_next_only_indents; [reflexivity|].
    intros j s Hj. apply H. lia.
Qed.

Lemma x3_no_gap_past_the_ends_witness :
  ~ is_before_diagnostic (after_result (Ex.ident "b" 1) (Ex.operator "+" 0))
  /\ ~ is_after_diagnostic (before_result (Ex.operator "+" 3) (Ex.operator "+" 3)).
Proof.
  split.
  - refine (proj1 (x3_no_gap_past_the_ends
                     [Ex.operator "+" 0; Ex.ident "b" 1; Ex.ident "c" 2] 0
                     (Ex.operator "+" 0) _ _) _).
    + left. reflexivity.
    + intros j s Hj. lia.
  - refine (proj2 (x3_no_gap_past_the_ends
                     [Ex.ident "a" 1; Ex.ident "b" 2; Ex.operator "+" 3; Ex.indent 4] 2
                     (Ex.operator "+" 3) _ _) _).
    + left. reflexivity.
    + intros j s Hj Hnth.
      destruct j as [|[|[|[|j]]]]; try lia; simpl in Hnth.
      * injection Hnth as <-. reflexivity.
      * now destruct j.
Defined.

(** *** Compound children with a single leaf *)

(** X4: a compound child that is not itself an operator and has a single
    leaf raises no diagnostic, even when that leaf is an operator: the
    first and last leaf are only looked at when there are at least two. *)
Theorem x4_single_leaf_compound_is_silent :
  forall (segs : list segment) (idx : nat) (c : segment),
    is_operator_target c = false ->
    List.length (iter_raw_seg c) <= 1 ->
    child_violations segs idx c = [].
Proof.
  intros segs idx c Hc Hlen.
  apply child_violations_no_target. unfold has_target, find_targets.
  unfold is_operator_target in Hc. rewrite Hc.
  replace (1 <? List.length (iter_raw_seg c))%nat with false
    by (symmetry; apply Nat.ltb_ge; assumption).
  destruct (segments c); simpl; now rewrite andb_false_r.
Qed.

Lemma x4_single_leaf_compound_is_silent_witness :
  child_violations
    [Ex.ident "a" 0; Ex.compound [Ex.operator "+" 1] 1; Ex.ident "b" 2] 1
    (Ex.compound [Ex.operator "+" 1] 1)
  = [].
Proof.
  apply x4_single_leaf_compound_is_silent.
  - reflexivity.
  - simpl. lia.
Defined.

(** *** Every gap is reported *)

Lemma first_non_indent_rev_snoc (pre : list segment) (x : segment) :
  first_non_indent (rev (pre ++ [x]))
  = if is_type x "indent" then first_non_indent (rev pre) else Some x.
Proof. rewrite rev_app_distr. apply first_non_indent_cons. Qed.

(** X5: with more than two children, an operator child whose resolved
    previous neighbour is no whitespace, no opening bracket and no meta
    segment ending in whitespace is reported with "Missing whitespace
    before"; likewise after it, when the resolved next neighbour is no
    whitespace, no closing bracket and no meta segment starting with
    whitespace. *)
Theorem x5_every_gap_is_reported :
  forall (node : segment) (pre : list segment) (op : segment) (post : list segment),
    segments node = pre ++ op :: post ->
    2 < List.length (segments node) ->
    examined op -> is_operator_target op = true ->
    (forall p,
        first_non_indent (rev pre) = Some p ->
        is_whitespace p = false ->
        endswith (name p) "_bracket" && startswith (name p) "start_" = false ->
        is_meta p && (endswith (source_str p) " " || endswith (source_str p) newline)
        = false ->
        In {| anchor := Some op;
              description :=
                Some ("Missing whitespace before " ++ slice_to 10 (raw op))%string;
              fixes := [ {| edit_type := Create; fix_anchor := op;
                            edit := make_whitespace " " (pos_marker op) |} ] |}
           (evaluate node))
    /\ (forall n,
        first_non_indent post = Some n ->
        is_whitespace n = false ->
        endswith (name n) "_bracket" && startswith (name n) "end_" = false ->
        is_meta n && (startswith (source_str n) " " || startswith (source_str n) newline)
        = false ->
        In {| anchor := Some op;
              description :=
                Some ("Missing whitespace after " ++ slice_last 10 (raw op))%string;
              fixes := [ {| edit_type := Create; fix_anchor := n;
                            edit := make_whitespace " " (pos_marker n) |} ] |}
           (evaluate node)).
Proof.
  intros node pre op post Hsegs Hlen Hex Ht.
  split.
  - intros p Hp Hw Hb Hm.
    apply in_evaluate. split; [assumption|].
    exists (List.length pre), op. rewrite Hsegs. split; [apply nth_error_middle|].
    rewrite (child_violations_operator _ _ _ Hex Ht), before_violations_split, Hp.
    simpl. rewrite Hw, Hb, Hm. simpl. left. reflexivity.
  - intros n Hn Hw Hb Hm.
    apply in_evaluate. split; [assumption|].
    exists (List.length pre), op. rewrite Hsegs. split; [apply nth_error_middle|].
    rewrite (child_violations_operator _ _ _ Hex Ht), after_violations_split, Hn.
    simpl. rewrite Hw, Hb, Hm. simpl. apply in_or_app. right. left. reflexivity.
Qed.

Lemma x5_every_gap_is_reported_witness :
  In {| anchor := Some (Ex.operator "+" 1);
        description := Some "Missing whitespace before +";
        fixes := [ {| edit_type := Create; fix_anchor := Ex.operator "+" 1;
                      edit := make_whitespace " " 1 |} ] |}
     (evaluate Ex.a_indent_plus_b)
  /\ In {| anchor := Some (Ex.operator "+" 1);
           description := Some "Missing whitespace after +";
           fixes := [ {| edit_type := Create; fix_anchor := Ex.ident "b" 2;
                         edit := make_whitespace " " 2 |} ] |}
        (evaluate Ex.a_indent_plus_b).
Proof.
  split.
  - refine (proj1 (x5_every_gap_is_reported
                     Ex.a_indent_plus_b [Ex.ident "a" 0; Ex.indent 1]
                     (Ex.operator "+" 1) [Ex.ident "b" 2] _ _ _ _)
                  (Ex.ident "a" 0) _ _ _ _);
      try reflexivity; [simpl; lia | split; reflexivity].
  - refine (proj2 (x5_every_gap_is_reported
                     Ex.a_indent_plus_b [Ex.ident "a" 0; Ex.indent 1]
                     (Ex.operator "+" 1) [Ex.ident "b" 2] _ _ _ _)
                  (Ex.ident "b" 2) _ _ _ _);
      try reflexivity; [simpl; lia | split; reflexivity].
Defined.



(** *** The message *)

Lemma string_length_append (s t : string) :
  String.length (s ++ t)%string = String.length s + String.length t.
Proof. induction s as [|c s IH]; simpl; [reflexivity | now rewrite IH]. Qed.

Lemma string_length_zero (s : string) : String.length s = 0 -> s = EmptyString.
Proof. destruct s; [reflexivity | discriminate]. Qed.

(** A substring sits in its string after [k] characters, as long as the
    string allows up to [n]. *)
Lemma substring_split (s : string) :
  forall k n,
    exists pre post,
      s = (pre ++ substring k n s ++ post)%string
      /\ String.length pre = Nat.min k (String.length s)
      /\ String.length (substring k n s) = Nat.min n (String.length s - k).
Proof.
  induction s as [|c s IH]; intros k n.
  - exists EmptyString, EmptyString.
    destruct k, n; simpl; repeat split; lia.
  - destruct k as [|k].
    + destruct n as [|n].
      * exists EmptyString, (String c s). simpl. repeat split.
      * destruct (IH 0 n) as (pre & post & Heq & Hpre & Hlen).
        simpl in Hpre. apply string_length_zero in Hpre. subst pre.
        exists EmptyString, post. simpl in *. repeat split.
        -- now rewrite <- Heq.
        -- rewrite Hlen. now rewrite Nat.sub_0_r.
    + destruct (IH k n) as (pre & post & Heq & Hpre & Hlen).
      exists (String c pre), post. simpl. repeat split.
      * now rewrite <- Heq.
      * now rewrite Hpre.
      * exact Hlen.
Qed.

Lemma slice_to_spec (n : nat) (s : string) :
  String.length (slice_to n s) = Nat.min n (String.length s)
  /\ exists rest, s = (slice_to n s ++ rest)%string.
Proof.
  unfold slice_to.
  destruct (substring_split s 0 n) as (pre & post & Heq & Hpre & Hlen).
  simpl in Hpre. apply string_length_zero in Hpre. subst pre.
  split; [now rewrite Hlen, Nat.sub_0_r | now exists post].
Qed.

Lemma slice_last_spec (n : nat) (s : string) :
  String.length (slice_last n s) = Nat.min n (String.length s)
  /\ exists pre, s = (pre ++ slice_last n s)%string.
Proof.
  unfold slice_last.
  destruct (substring_split s (String.length s - n) n)
    as (pre & post & Heq & Hpre & Hlen).
  assert (Hpost : String.length post = 0).
  { apply (f_equal String.length) in Heq.
    rewrite !string_length_append in Heq. lia. }
  apply string_length_zero in Hpost. subst post.
  split; [lia|]. exists pre.
  assert (Hnil : forall t, (t ++ "")%string = t)
    by (induction t as [|c t IHt]; simpl; [reflexivity | now rewrite IHt]).
  now rewrite Hnil in Heq.
Qed.

(** X7: the message of a diagnostic names at most ten characters of its
    anchor's raw text: "Missing whitespace before " is followed by the
    first ten characters of the raw text, "Missing whitespace after " by
    the last ten, and by the whole raw text when it has no more than
    ten. *)
Theorem x7_message_names_ten_characters :
  forall (node : segment) (r : LintResult),
    In r (evaluate node) ->
    exists a x,
      anchor r = Some a
      /\ String.length x = Nat.min 10 (String.length (raw a))
      /\ ((description r = Some ("Missing whitespace before " ++ x)%string
           /\ exists rest, raw a = (x ++ rest)%string)
          \/ (description r = Some ("Missing whitespace after " ++ x)%string
              /\ exists pre, raw a = (pre ++ x)%string)).
Proof.
  intros node r Hr.
  apply in_evaluate in Hr as (_ & idx & sub_seg & _ & Hr).
  apply in_child_violations in Hr as (_ & [(_ & _ & ->)|(_ & n & _ & _ & ->)]).
  - destruct (slice_to_spec 10 (raw (before_anchor (find_targets sub_seg))))
      as [Hlen Hrest].
    eexists. eexists. split; [reflexivity|]. split; [exact Hlen|]. left.
    split; [reflexivity | exact Hrest].
  - destruct (slice_last_spec 10 (raw (after_anchor (find_targets sub_seg))))
      as [Hlen Hpre].
    eexists. eexists. split; [reflexivity|]. split; [exact Hlen|]. right.
    split; [reflexivity | exact Hpre].
Qed.

Lemma x7_message_names_ten_characters_witness :
  exists a x,
    anchor (after_result (Ex.ident "b" 2) (Ex.operator "+" 1)) = Some a
    /\ String.length x = Nat.min 10 (String.length (raw a))
    /\ ((description (after_result (Ex.ident "b" 2) (Ex.operator "+" 1))
         = Some ("Missing whitespace before " ++ x)%string
         /\ exists rest, raw a = (x ++ rest)%string)
        \/ (description (after_result (Ex.ident "b" 2) (Ex.operator "+" 1))
            = Some ("Missing whitespace after " ++ x)%string
            /\ exists pre, raw a = (pre ++ x)%string)).
Proof.
  apply (x7_message_names_ten_characters
           Ex.a_plus_b (after_result (Ex.ident "b" 2) (Ex.operator "+" 1))).
  right. left. reflexivity.
Defined.

(** *** How many diagnostics *)

Lemma child_violations_bound (segs : list segment) (idx : nat) (s : segment) :
  List.length (child_violations segs idx s) <= if has_target s then 2 else 0.
Proof.
  destruct (has_target s) eqn:Ht.
  - destruct (child_violations_shape segs idx s) as (B & A & -> & HB & HA).
    rewrite length_app.
    destruct HB as [->| ->], HA as [->|[n ->]]; simpl; lia.
  - now rewrite child_violations_no_target.
Qed.

Lemma range_violations_bound (post pre : list segment) :
  List.length (range_violations (pre ++ post) (List.length pre) (List.length post))
  <= 2 * List.length (filter has_target post).
Proof.
  revert pre. induction post as [|x post IH]; intros pre; [simpl; lia|].
  cbn [List.length]. rewrite range_violations_cons, nth_error_middle, length_app.
  pose proof (child_violations_bound (pre ++ x :: post) (List.length pre) x) as Hx.
  specialize (IH (pre ++ [x])).
  rewrite <- app_cons_assoc, length_snoc in IH.
  cbn [filter]. destruct (has_target x); cbn [List.length]; lia.
Qed.

(** X8: [evaluate] returns at most two diagnostics for each child that
    holds a target (a code, non-whitespace child that is an operator or a
    compound segment starting or ending with one), and none for the other
    children: the result is made of the children's own diagnostics, child
    after child; a child raises at most two, and a child without a target
    raises none; so there are at most twice as many diagnostics as there
    are children with a target. *)
Theorem x8_at_most_two_per_target :
  forall node : segment,
    (forall idx sub_seg,
        nth_error (segments node) idx = Some sub_seg ->
        List.length (child_violations (segments node) idx sub_seg) <= 2
        /\ (has_target sub_seg = false ->
            child_violations (segments node) idx sub_seg = []))
    /\ (forall r,
        In r (evaluate node) ->
        exists idx sub_seg,
          nth_error (segments node) idx = Some sub_seg
          /\ has_target sub_seg = true
          /\ In r (child_violations (segments node) idx sub_seg))
    /\ evaluate node
       = (if (List.length (segments node) <=? 2)%nat then []
          else flat_map (fun idx =>
                           match nth_error (segments node) idx with
                           | Some sub_seg =>
                               child_violations (segments node) idx sub_seg
                           | None => []
                           end)
                        (seq 0 (List.length (segments node))))
    /\ List.length (evaluate node)
       <= 2 * List.length (filter has_target (segments node)).
Proof.
  intros node. split; [|split; [|split]].
  - intros idx sub_seg _.
    pose proof (child_violations_bound (segments node) idx sub_seg) as H.
    split.
    + destruct (has_target sub_seg); lia.
    + intros Hnone. now apply child_violations_no_target.
  - intros r Hr.
    apply in_evaluate in Hr as (_ & idx & sub_seg & Hnth & Hr).
    exists idx, sub_seg. repeat split; try assumption.
    destruct (has_target sub_seg) eqn:Ht; [reflexivity|].
    now rewrite child_violations_no_target in Hr.
  - apply evaluate_unfold.
  - rewrite evaluate_unfold.
    destruct (_ <=? _)%nat; [simpl; lia|].
    apply (range_violations_bound (segments node) []).
Qed.

Lemma x8_at_most_two_per_target_witness :
  List.length (child_violations (segments Ex.a_plus_b) 1 (Ex.operator "+" 1)) <= 2
  /\ child_violations (segments Ex.a_plus_b) 0 (Ex.ident "a" 0) = []
  /\ exists idx sub_seg,
      nth_error (segments Ex.a_plus_b) idx = Some sub_seg
      /\ has_target sub_seg = true
      /\ In (before_result (Ex.operator "+" 1) (Ex.operator "+" 1))
            (child_violations (segments Ex.a_plus_b) idx sub_seg).
Proof.
  destruct (x8_at_most_two_per_target Ex.a_plus_b) as (Hchild & Hin & _ & _).
  split; [|split].
  - apply (Hchild 1 (Ex.operator "+" 1)). reflexivity.
  - apply (Hchild 0 (Ex.ident "a" 0)); reflexivity.
  - apply Hin. left. reflexivity.
Defined.

(** *** Only the resolved neighbours matter *)

Lemma child_violations_same_neighbours (pre pre' post post' : list segment)
      (s : segment) :
  first_non_indent (rev pre) = first_non_indent (rev pre') ->
  first_non_indent post = first_non_indent post' ->
  child_violations (pre ++ s :: post) (List.length pre) s
  = child_violations (pre' ++ s :: post') (List.length pre') s.
Proof.
  intros Hprev Hnext.
  destruct (is_whitespace s) eqn:Hw.
  { now rewrite !child_violations_whitespace. }
  destruct (is_code s) eqn:Hc.
  2:{ now rewrite !child_violations_non_code. }
  rewrite !child_violations_examined by now split.
  now rewrite !before_violations_split, !after_violations_split, Hprev, Hnext.
Qed.

(** X9: the diagnostics a child raises depend only on the child, on the
    first non-indent sibling before it and on the first non-indent sibling
    after it: two child lists that agree on these give the child the same
    diagnostics. *)
Theorem x9_child_depends_on_neighbours :
  forall (pre pre' post post' : list segment) (s : segment),
    first_non_indent (rev pre) = first_non_indent (rev pre') ->
    first_non_indent post = first_non_indent post' ->
    child_violations (pre ++ s :: post) (List.length pre) s
    = child_violations (pre' ++ s :: post') (List.length pre') s.
Proof.
  intros pre pre' post post' s Hprev Hnext.
  destruct (is_whitespace s) eqn:Hw.
  { now rewrite !child_violations_whitespace. }
  destruct (is_code s) eqn:Hc.
  2:{ now rewrite !child_violations_non_code. }
  rewrite !child_violations_examined by now split.
  now rewrite !before_violations_split, !after_violations_split, Hprev, Hnext.
Qed.

Lemma x9_child_depends_on_neighbours_witness :
  child_violations (segments Ex.a_indent_plus_b) 2 (Ex.operator "+" 1)
  = child_violations (segments Ex.a_plus_b) 1 (Ex.operator "+" 1).
Proof.
  apply (x9_child_depends_on_neighbours
           [Ex.ident "a" 0; Ex.indent 1] [Ex.ident "a" 0]
           [Ex.ident "b" 2] [Ex.ident "b" 2] (Ex.operator "+" 1));
    reflexivity.
Defined.

Lemma first_non_indent_app_congr (l post post' : list segment) :
  first_non_indent post = first_non_indent post' ->
  first_non_indent (l ++ post) = first_non_indent (l ++ post').
Proof.
  intros H. induction l as [|x l IH]; [exact H|].
  rewrite <- !app_comm_cons, !first_non_indent_cons. now rewrite IH.
Qed.

(** The children after a prefix raise the same when the prefix is replaced
    by one with the same last non-indent segment. *)
Lemma range_violations_after_prefix (post pre pre' : list segment) :
  first_non_indent (rev pre) = first_non_indent (rev pre') ->
  range_violations (pre ++ post) (List.length pre) (List.length post)
  = range_violations (pre' ++ post) (List.length pre') (List.length post).
Proof.
  revert pre pre'. induction post as [|x post IH]; intros pre pre' H; [reflexivity|].
  cbn [List.length]. rewrite !range_violations_cons, !nth_error_middle.
  f_equal; [now apply child_violations_same_neighbours|].
  rewrite (app_cons_assoc pre x post), (app_cons_assoc pre' x post).
  rewrite <- (length_snoc pre x), <- (length_snoc pre' x).
  apply IH. now rewrite !first_non_indent_rev_snoc, H.
Qed.

(** The children before a suffix raise the same when the suffix is
    replaced by one with the same first non-indent segment. *)
Lemma range_violations_before_suffix (mid pre0 post post' : list segment) :
  first_non_indent post = first_non_indent post' ->
  range_violations (pre0 ++ mid ++ post) (List.length pre0) (List.length mid)
  = range_violations (pre0 ++ mid ++ post') (List.length pre0) (List.length mid).
Proof.
  intros H. revert pre0. induction mid as [|x mid IH]; intros pre0; [reflexivity|].
  cbn [List.length]. rewrite <- !app_comm_cons.
  rewrite !range_violations_cons, !nth_error_middle.
  f_equal.
  - apply child_violations_same_neighbours; [reflexivity|].
    now apply first_non_indent_app_congr.
  - rewrite (app_cons_assoc pre0 x (mid ++ post)),
            (app_cons_assoc pre0 x (mid ++ post')).
    rewrite <- (length_snoc pre0 x). apply IH.
Qed.

(** X10: indent markers are transparent: in a segment with more than two
    children, putting a non-code segment tagged "indent" anywhere among the
    children leaves the diagnostics of [evaluate] unchanged. *)
Theorem x10_indent_marker_is_transparent :
  forall (node node' : segment) (pre post : list segment) (marker : segment),
    segments node = pre ++ post ->
    segments node' = pre ++ marker :: post ->
    2 < List.length (segments node) ->
    is_type marker "indent" = true -> is_code marker = false ->
    evaluate node' = evaluate node.
Proof.
  intros node node' pre post marker Hsegs Hsegs' Hlen Hind Hnc.
  rewrite !evaluate_unfold, Hsegs, Hsegs'. rewrite Hsegs in Hlen.
  rewrite !length_app in *. cbn [List.length].
  replace (_ <=? 2)%nat with false by (symmetry; apply Nat.leb_gt; lia).
  replace (_ <=? 2)%nat with false by (symmetry; apply Nat.leb_gt; lia).
  rewrite !range_violations_app, range_violations_cons. cbn [Nat.add].
  rewrite nth_error_middle, (child_violations_non_code _ _ _ Hnc). cbn [app].
  f_equal.
  - apply (range_violations_before_suffix pre [] (marker :: post) post).
    rewrite first_non_indent_cons. now rewrite Hind.
  - rewrite (app_cons_assoc pre marker post), <- (length_snoc pre marker).
    apply range_violations_after_prefix.
    rewrite first_non_indent_rev_snoc. now rewrite Hind.
Qed.

Lemma x10_indent_marker_is_transparent_witness :
  evaluate Ex.a_indent_plus_b = evaluate Ex.a_plus_b.
Proof.
  apply (x10_indent_marker_is_transparent
           Ex.a_plus_b Ex.a_indent_plus_b
           [Ex.ident "a" 0] [Ex.operator "+" 1; Ex.ident "b" 2] (Ex.indent 1));
    try reflexivity.
  simpl. lia.
Defined.

(** *** Compound children that start or end with an operator *)

Lemma find_targets_compound (c : segment) :
  is_operator_target c = false ->
  segments c <> [] -> 1 < List.length (iter_raw_seg c) ->
  find_targets c
  = mkChecks (is_operator_target (hd c (iter_raw_seg c)))
             (is_operator_target (last (iter_raw_seg c) c))
             (if is_operator_target (hd c (iter_raw_seg c))
              then hd c (iter_raw_seg c) else c)
             (if is_operator_target (last (iter_raw_seg c) c)
              then last (iter_raw_seg c) c else c).
Proof.
  unfold is_operator_target, find_targets. intros Hc Hsegs Hlen.
  rewrite Hc. destruct (segments c) as [|x xs]; [now destruct Hsegs|].
  apply Nat.ltb_lt in Hlen. rewrite Hlen.
  destruct (matches_target_tuples (hd c (iter_raw_seg c)) _target_elems),
           (matches_target_tuples (last (iter_raw_seg c) c) _target_elems);
    reflexivity.
Qed.

(** X11: with more than two children, a compound child of at least two
    leaves that is not itself an operator is reported through its outer
    leaves: when its first leaf is an operator and the resolved previous
    neighbour is substantive, "Missing whitespace before" is raised,
    anchored at that leaf, with the fix anchored at the compound child;
    when its last leaf is an operator and the resolved next neighbour is
    substantive, "Missing whitespace after" is raised, anchored at that
    leaf, with the fix anchored at the neighbour. *)
Theorem x11_compound_reported_through_outer_leaves :
  forall (node : segment) (pre : list segment) (c : segment) (post : list segment),
    segments node = pre ++ c :: post ->
    2 < List.length (segments node) ->
    examined c -> is_operator_target c = false ->
    segments c <> [] -> 1 < List.length (iter_raw_seg c) ->
    (is_operator_target (hd c (iter_raw_seg c)) = true ->
     forall p, first_non_indent (rev pre) = Some p -> substantive p ->
               In {| anchor := Some (hd c (iter_raw_seg c));
                     description :=
                       Some ("Missing whitespace before "
                             ++ slice_to 10 (raw (hd c (iter_raw_seg c))))%string;
                     fixes := [ {| edit_type := Create; fix_anchor := c;
                                   edit := make_whitespace " " (pos_marker c) |} ] |}
                  (evaluate node))
    /\ (is_operator_target (last (iter_raw_seg c) c) = true ->
        forall n, first_non_indent post = Some n -> substantive n ->
                  In {| anchor := Some (last (iter_raw_seg c) c);
                        description :=
                          Some ("Missing whitespace after "
                                ++ slice_last 10 (raw (last (iter_raw_seg c) c)))%string;
                        fixes := [ {| edit_type := Create; fix_anchor := n;
                                      edit := make_whitespace " " (pos_marker n) |} ] |}
                     (evaluate node)).
Proof.
  intros node pre c post Hsegs Hlen Hex Hc Hkids Hleaves.
  pose proof (find_targets_compound c Hc Hkids Hleaves) as Hfind.
  split.
  - intros Hlead p Hp Hsub.
    apply in_evaluate. split; [assumption|].
    exists (List.length pre), c. rewrite Hsegs. split; [apply nth_error_middle|].
    rewrite (child_violations_examined _ _ _ Hex), Hfind, Hlead.
    cbn [check_before check_after before_anchor after_anchor].
    rewrite before_violations_split, Hp, (before_gap_substantive p Hsub).
    apply in_or_app. left. left. reflexivity.
  - intros Htrail n Hn Hsub.
    apply in_evaluate. split; [assumption|].
    exists (List.length pre), c. rewrite Hsegs. split; [apply nth_error_middle|].
    rewrite (child_violations_examined _ _ _ Hex), Hfind, Htrail.
    cbn [check_before check_after before_anchor after_anchor].
    rewrite after_violations_split, Hn, (after_gap_substantive n Hsub).
    apply in_or_app. right. left. reflexivity.
Qed.

Lemma x11_compound_reported_through_outer_leaves_witness :
  In {| anchor := Some (Ex.operator "+" 1);
        description := Some "Missing whitespace before +";
        fixes := [ {| edit_type := Create;
                      fix_anchor := Ex.compound [Ex.operator "+" 1; Ex.ident "x" 2;
                                                 Ex.operator "-" 3] 1;
                      edit := make_whitespace " " 1 |} ] |}
     (evaluate (Ex.parent
                  [Ex.ident "a" 0;
                   Ex.compound [Ex.operator "+" 1; Ex.ident "x" 2; Ex.operator "-" 3] 1;
                   Ex.ident "b" 4]))
  /\ In {| anchor := Some (Ex.operator "-" 3);
           description := Some "Missing whitespace after -";
           fixes := [ {| edit_type := Create; fix_anchor := Ex.ident "b" 4;
                         edit := make_whitespace " " 4 |} ] |}
        (evaluate (Ex.parent
                     [Ex.ident "a" 0;
                      Ex.compound [Ex.operator "+" 1; Ex.ident "x" 2; Ex.operator "-" 3] 1;
                      Ex.ident "b" 4])).
Proof.
  split.
  - refine (proj1 (x11_compound_reported_through_outer_leaves
                     (Ex.parent
                        [Ex.ident "a" 0;
                         Ex.compound [Ex.operator "+" 1; Ex.ident "x" 2;
                                      Ex.operator "-" 3] 1;
                         Ex.ident "b" 4])
                     [Ex.ident "a" 0]
                     (Ex.compound [Ex.operator "+" 1; Ex.ident "x" 2;
                                   Ex.operator "-" 3] 1)
                     [Ex.ident "b" 4] _ _ _ _ _ _) _ (Ex.ident "a" 0) _ _);
      try reflexivity; try (repeat split; reflexivity);
      try discriminate; simpl; lia.
  - refine (proj2 (x11_compound_reported_through_outer_leaves
                     (Ex.parent
                        [Ex.ident "a" 0;
                         Ex.compound [Ex.operator "+" 1; Ex.ident "x" 2;
                                      Ex.operator "-" 3] 1;
                         Ex.ident "b" 4])
                     [Ex.ident "a" 0]
                     (Ex.compound [Ex.operator "+" 1; Ex.ident "x" 2;
                                   Ex.operator "-" 3] 1)
                     [Ex.ident "b" 4] _ _ _ _ _ _) _ (Ex.ident "b" 4) _ _);
      try reflexivity; try (repeat split; reflexivity);
      try discriminate; simpl; lia.
Defined.
